(** * AutopilotMeteor: the autopilot, the near-miss tracker and the game loop

    A shallow embedding of [spaceship_game.py] (and of the stand-alone
    tracker of [tracking.py]).

    Numbers.  The program computes with Python numbers (ints promoted to
    floats).  They are read here as real numbers: [math.hypot] is the
    Euclidean norm, the arithmetic operators are the field operations and
    the comparisons are the order of [R].  Rounding, signed zeros, infinities
    and NaN are outside this model.  The one arithmetic fault Python can
    raise in this code, [ZeroDivisionError], is kept: division is partial
    ([pdiv]) and every function that divides lives in the [option] monad.

    Rounding.  The speed limit is where rounding shows: the velocity
    computation of [avoid_meteors] is therefore given a second time over an
    arbitrary arithmetic ([Arith]), of which the real numbers
    ([exact_arithmetic]) and binary64 ([F64.binary64]) are instances.

    Effects.  [time.time()] is an input of the functions that read the
    clock; the pseudo-random draws of a tick and the quit request are inputs
    of the tick; the file written by [save_analytics] is a store from file
    names to reports; Python object identity of meteors is an explicit
    identity field. *)

From Stdlib Require Import Reals Lra Lia List String Bool Arith ZArith Sorted.
From Stdlib Require QArith PrimFloat FloatOps SpecFloat.
Import ListNotations.

Open Scope R_scope.

(** ** Numbers and comparisons *)

Definition Rltb (a b : R) : bool := if Rlt_dec a b then true else false.
Definition Rgtb (a b : R) : bool := if Rgt_dec a b then true else false.
Definition Rneqb (a b : R) : bool := if Req_dec_T a b then false else true.

Infix "<?" := Rltb (at level 70, no associativity) : R_scope.
Infix ">?" := Rgtb (at level 70, no associativity) : R_scope.
Infix "!=?" := Rneqb (at level 70, no associativity) : R_scope.

(** [math.hypot(a, b)] *)
Definition hypot (a b : R) : R := sqrt (a * a + b * b).

(** Python's two-argument [max] and [min]: the first argument wins ties. *)
Definition py_max (a b : R) : R := if b >? a then b else a.
Definition py_min (a b : R) : R := if b <? a then b else a.

(** [math.atan2(b, a)] and [math.degrees].  On the negative x axis
    ([b = 0], [a < 0]) Python returns pi for [b = +0.0] and for an integer
    zero, and -pi for [b = -0.0]; a real number does not carry the sign of a
    zero, so the value given here on that half-line, pi, stands for the first
    case only, and no statement below depends on which of the two it is. *)
Definition atan2 (b a : R) : R :=
  if 0 <? a then atan (b / a)
  else if a <? 0 then (if b <? 0 then atan (b / a) - PI else atan (b / a) + PI)
  else if 0 <? b then PI / 2
  else if b <? 0 then - PI / 2
  else 0.

Definition degrees (r : R) : R := r * 180 / PI.

(** ** Faults: [None] is a raised exception *)

Definition bind {A B : Type} (m : option A) (k : A -> option B) : option B :=
  match m with
  | Some a => k a
  | None => None
  end.

Notation "x <- m ;; k" := (bind m (fun x => k))
  (at level 61, m at next level, right associativity).

(** [a / b] on Python floats raises [ZeroDivisionError] when [b] is zero. *)
Definition pdiv (a b : R) : option R :=
  if Req_dec_T b 0 then None else Some (a / b).

(** ** Constants of [spaceship_game.py] *)

Definition WIDTH : R := 800.
Definition HEIGHT : R := 600.
Definition SPACESHIP_SIZE : R := 10.
Definition METEOR_SIZE : R := 25.
Definition MAX_SPEED : R := 5.
Definition DETECTION_RADIUS : R := 110.
Definition AVOIDANCE_STRENGTH : R := 5 / 10.
Definition CENTERING_STRENGTH : R := 1 / 10.

(** ** Objects *)

Record Spaceship : Type := mkSpaceship {
  x : R;
  y : R;
  velocity_x : R;
  velocity_y : R;
  angle : R
}.

(** A meteor object.  [ident] is the identity of the Python object: the
    class defines no [__eq__], so [list.remove] compares by identity. *)
Record Meteor : Type := mkMeteor {
  ident : nat;
  m_x : R;
  m_y : R;
  m_velocity_x : R;
  m_velocity_y : R
}.

Record NearMissEvent : Type := mkNearMissEvent {
  timestamp : R;
  distance : R;
  ship_position : R * R;
  meteor_position : R * R;
  ship_velocity : R * R;
  meteor_velocity : R * R
}.

Record GameTracker : Type := mkGameTracker {
  start_time : R;
  near_misses : list NearMissEvent;
  danger_threshold : R;
  critical_threshold : R
}.

(** ** GameTracker *)

(** [GameTracker.__init__]; [now] is the reading of [time.time()]. *)
Definition GameTracker_init (now : R) : GameTracker :=
  {| start_time := now;
     near_misses := [];
     danger_threshold := 50;
     critical_threshold := 35 |}.

Definition append_event (self : GameTracker) (event : NearMissEvent) : GameTracker :=
  {| start_time := start_time self;
     near_misses := near_misses self ++ [event];
     danger_threshold := danger_threshold self;
     critical_threshold := critical_threshold self |}.

(** The distance of one meteor to the craft, as each scan computes it. *)
Definition center_distance (spaceship : Spaceship) (meteor : Meteor) : R :=
  hypot (x spaceship - m_x meteor) (y spaceship - m_y meteor).

(** The test of [track_frame] on one meteor. *)
Definition is_near_miss (self : GameTracker) (spaceship : Spaceship) (meteor : Meteor) : bool :=
  let distance := center_distance spaceship meteor in
  (distance <? danger_threshold self) && (distance >? SPACESHIP_SIZE + METEOR_SIZE).

(** The event [track_frame] builds for one meteor. *)
Definition make_event (current_time : R) (spaceship : Spaceship) (meteor : Meteor)
  : NearMissEvent :=
  {| timestamp := current_time;
     distance := center_distance spaceship meteor;
     ship_position := (x spaceship, y spaceship);
     meteor_position := (m_x meteor, m_y meteor);
     ship_velocity := (velocity_x spaceship, velocity_y spaceship);
     meteor_velocity := (m_velocity_x meteor, m_velocity_y meteor) |}.

(** The body of the [for meteor in meteors] loop of [track_frame]. *)
Fixpoint track_loop (current_time : R) (spaceship : Spaceship)
  (meteors : list Meteor) (self : GameTracker) : GameTracker :=
  match meteors with
  | [] => self
  | meteor :: rest =>
      if is_near_miss self spaceship meteor
      then track_loop current_time spaceship rest
             (append_event self (make_event current_time spaceship meteor))
      else track_loop current_time spaceship rest self
  end.

(** [GameTracker.track_frame]; [now] is the reading of [time.time()]. *)
Definition track_frame (now : R) (self : GameTracker) (spaceship : Spaceship)
  (meteors : list Meteor) : GameTracker :=
  let current_time := now - start_time self in
  track_loop current_time spaceship meteors self.

(** One entry of the ["near_misses"] list of the report. *)
Record ReportEntry : Type := mkReportEntry {
  r_timestamp : R;
  r_distance : R;
  r_ship_position : R * R;
  r_meteor_position : R * R;
  r_ship_velocity : R * R;
  r_meteor_velocity : R * R;
  severity : string
}.

(** The [analytics] dictionary. *)
Record Analytics : Type := mkAnalytics {
  total_runtime : R;
  total_near_misses : nat;
  report_near_misses : list ReportEntry
}.

Definition report_entry (self : GameTracker) (event : NearMissEvent) : ReportEntry :=
  {| r_timestamp := timestamp event;
     r_distance := distance event;
     r_ship_position := ship_position event;
     r_meteor_position := meteor_position event;
     r_ship_velocity := ship_velocity event;
     r_meteor_velocity := meteor_velocity event;
     severity := if distance event <? critical_threshold self
                 then "CRITICAL"%string else "WARNING"%string |}.

(** The dictionary built at the head of [save_analytics]. *)
Definition build_analytics (now : R) (self : GameTracker) : Analytics :=
  {| total_runtime := now - start_time self;
     total_near_misses := List.length (near_misses self);
     report_near_misses := map (report_entry self) (near_misses self) |}.

(** The files [save_analytics] has written, latest first. *)
Definition FileStore : Type := list (string * Analytics).

(** [GameTracker.save_analytics]: build the dictionary, then dump it to the
    file.  The tracker and the file store are threaded through. *)
Definition save_analytics (now : R) (filename : string)
  (st : GameTracker * FileStore) : GameTracker * FileStore :=
  let '(self, files) := st in
  let analytics := build_analytics now self in
  (self, (filename, analytics) :: files).

Definition default_filename : string := "game_analytics.json".

(** ** Spaceship *)

(** [Spaceship.__init__]: [WIDTH // 2] and [HEIGHT // 2]. *)
Definition Spaceship_init : Spaceship :=
  {| x := 400; y := 300; velocity_x := 0; velocity_y := 0; angle := 0 |}.

Definition set_velocity (self : Spaceship) (vx vy : R) : Spaceship :=
  {| x := x self; y := y self; velocity_x := vx; velocity_y := vy;
     angle := angle self |}.

Definition set_position (self : Spaceship) (px py : R) : Spaceship :=
  {| x := px; y := py; velocity_x := velocity_x self;
     velocity_y := velocity_y self; angle := angle self |}.

Definition set_angle (self : Spaceship) (a : R) : Spaceship :=
  {| x := x self; y := y self; velocity_x := velocity_x self;
     velocity_y := velocity_y self; angle := a |}.

(** The locals [avoidance_vector] and [in_danger] of [avoid_meteors]. *)
Record Scan : Type := mkScan {
  avoidance_vector : R * R;
  in_danger : bool
}.

Definition scan_start : Scan :=
  {| avoidance_vector := (0, 0); in_danger := false |}.

(** The first loop of [avoid_meteors]. *)
Fixpoint threat_scan (self : Spaceship) (meteors : list Meteor) (acc : Scan)
  : option Scan :=
  match meteors with
  | [] => Some acc
  | meteor :: rest =>
      let distance := center_distance self meteor in
      if (distance <? DETECTION_RADIUS) && (distance >? 0) then
        ux <- pdiv (x self - m_x meteor) distance ;;
        uy <- pdiv (y self - m_y meteor) distance ;;
        threat_scan self rest
          {| avoidance_vector := (fst (avoidance_vector acc) + ux,
                                  snd (avoidance_vector acc) + uy);
             in_danger := true |}
      else threat_scan self rest acc
  end.

(** "Normalize and apply avoidance". *)
Definition apply_avoidance (self : Spaceship) (avoidance_vector : R * R)
  : option Spaceship :=
  let length := hypot (fst avoidance_vector) (snd avoidance_vector) in
  if length >? 0 then
    ux <- pdiv (fst avoidance_vector) length ;;
    uy <- pdiv (snd avoidance_vector) length ;;
    Some (set_velocity self
            (velocity_x self + ux * AVOIDANCE_STRENGTH)
            (velocity_y self + uy * AVOIDANCE_STRENGTH))
  else Some self.

(** "If not in danger, move towards the center of the screen". *)
Definition apply_centering (self : Spaceship) (in_danger : bool)
  : option Spaceship :=
  if negb in_danger then
    let center_x := WIDTH / 2 in
    let center_y := HEIGHT / 2 in
    let dx := center_x - x self in
    let dy := center_y - y self in
    let norm := hypot dx dy in
    d <- (if norm !=? 0
          then (dx' <- pdiv dx norm ;; dy' <- pdiv dy norm ;; Some (dx', dy'))
          else Some (dx, dy)) ;;
    Some (set_velocity self
            (velocity_x self + fst d * CENTERING_STRENGTH)
            (velocity_y self + snd d * CENTERING_STRENGTH))
  else Some self.

(** "Limit speed". *)
Definition limit_speed (self : Spaceship) : option Spaceship :=
  let speed := hypot (velocity_x self) (velocity_y self) in
  if speed >? MAX_SPEED then
    qx <- pdiv (velocity_x self) speed ;;
    qy <- pdiv (velocity_y self) speed ;;
    Some (set_velocity self (qx * MAX_SPEED) (qy * MAX_SPEED))
  else Some self.

(** "Calculate angle". *)
Definition update_angle (self : Spaceship) : Spaceship :=
  if (velocity_x self !=? 0) || (velocity_y self !=? 0)
  then set_angle self (degrees (atan2 (- velocity_y self) (velocity_x self)))
  else self.

(** [self.x += self.velocity_x; self.y += self.velocity_y]. *)
Definition integrate (self : Spaceship) : Spaceship :=
  set_position self (x self + velocity_x self) (y self + velocity_y self).

(** "Keep within screen bounds". *)
Definition keep_in_bounds (self : Spaceship) : Spaceship :=
  set_position self
    (py_max SPACESHIP_SIZE (py_min (WIDTH - SPACESHIP_SIZE) (x self)))
    (py_max SPACESHIP_SIZE (py_min (HEIGHT - SPACESHIP_SIZE) (y self))).

(** The velocity after avoidance and centering, before the speed limit. *)
Definition steer (self : Spaceship) (meteors : list Meteor) : option Spaceship :=
  s <- threat_scan self meteors scan_start ;;
  self1 <- apply_avoidance self (avoidance_vector s) ;;
  apply_centering self1 (in_danger s).

(** [Spaceship.avoid_meteors]. *)
Definition avoid_meteors (self : Spaceship) (meteors : list Meteor)
  : option Spaceship :=
  self2 <- steer self meteors ;;
  self3 <- limit_speed self2 ;;
  Some (keep_in_bounds (integrate (update_angle self3))).

(** ** Meteor *)

Inductive Side : Type := side_left | side_right | side_top | side_bottom.

(** The pseudo-random draws of one [Meteor()]: [random.choice],
    [random.randint(0, ...)], [random.uniform(0, 2 * math.pi)] and
    [random.randint(1, 3)]. *)
Record MeteorDraws : Type := mkMeteorDraws {
  d_side : Side;
  d_coord : R;
  d_angle : R;
  d_speed : R
}.

(** [Meteor.__init__]; [i] is the identity of the new object. *)
Definition Meteor_init (i : nat) (d : MeteorDraws) : Meteor :=
  let '(px, py) :=
    match d_side d with
    | side_left => (0, d_coord d)
    | side_right => (WIDTH, d_coord d)
    | side_top => (d_coord d, 0)
    | side_bottom => (d_coord d, HEIGHT)
    end in
  {| ident := i; m_x := px; m_y := py;
     m_velocity_x := cos (d_angle d) * d_speed d;
     m_velocity_y := sin (d_angle d) * d_speed d |}.

(** [Meteor.update]. *)
Definition update (self : Meteor) : Meteor :=
  {| ident := ident self;
     m_x := m_x self + m_velocity_x self;
     m_y := m_y self + m_velocity_y self;
     m_velocity_x := m_velocity_x self;
     m_velocity_y := m_velocity_y self |}.

(** ** The game loop of [main] *)

(** "Remove off-screen meteors": the test. *)
Definition off_screen (meteor : Meteor) : bool :=
  (m_x meteor <? - METEOR_SIZE) || (m_x meteor >? WIDTH + METEOR_SIZE) ||
  (m_y meteor <? - METEOR_SIZE) || (m_y meteor >? HEIGHT + METEOR_SIZE).

(** [meteors.remove(meteor)]: drops the first entry that is this object;
    [ValueError] when there is none. *)
Fixpoint list_remove (i : nat) (meteors : list Meteor) : option (list Meteor) :=
  match meteors with
  | [] => None
  | m :: rest =>
      if Nat.eqb (ident m) i then Some rest
      else (rest' <- list_remove i rest ;; Some (m :: rest'))
  end.

(** [meteor.update()] mutates the object, so every entry of the live list
    that is this object changes. *)
Definition update_in_place (i : nat) (meteors : list Meteor) : list Meteor :=
  map (fun m => if Nat.eqb (ident m) i then update m else m) meteors.

(** [for meteor in meteors[:]]: [snapshot] is the copy being walked,
    [meteors] the live list.  The copy shares its objects with the live
    list; an entry of the copy is read as the object's state before its
    update, which it is when each object occurs once ([distinct_objects],
    which every run keeps). *)
Fixpoint meteors_pass (snapshot meteors : list Meteor) : option (list Meteor) :=
  match snapshot with
  | [] => Some meteors
  | meteor :: rest =>
      let meteors1 := update_in_place (ident meteor) meteors in
      if off_screen (update meteor)
      then (meteors2 <- list_remove (ident meteor) meteors1 ;;
            meteors_pass rest meteors2)
      else meteors_pass rest meteors1
  end.

(** "Collision detection": the loop over the meteors. *)
Fixpoint collision_detection (spaceship : Spaceship) (meteors : list Meteor)
  (running : bool) : bool :=
  match meteors with
  | [] => running
  | meteor :: rest =>
      let distance := center_distance spaceship meteor in
      if distance <? SPACESHIP_SIZE + METEOR_SIZE
      then collision_detection spaceship rest false
      else collision_detection spaceship rest running
  end.

(** The locals of [main]; [next_ident] is the supply of object identities. *)
Record Game : Type := mkGame {
  spaceship : Spaceship;
  meteors : list Meteor;
  running : bool;
  score : nat;
  tracker : GameTracker;
  next_ident : nat
}.

(** What one pass of the [while] loop reads from outside: [random.random()],
    the draws of a [Meteor()], [time.time()] and whether a [QUIT] event is
    pending. *)
Record Frame : Type := mkFrame {
  spawn_draw : R;
  meteor_draws : MeteorDraws;
  clock : R;
  quit : bool
}.

Definition main_start (now : R) : Game :=
  {| spaceship := Spaceship_init;
     meteors := [];
     running := true;
     score := 0;
     tracker := GameTracker_init now;
     next_ident := 0 |}.

(** "Spawn meteors". *)
Definition spawn (f : Frame) (g : Game) : list Meteor * nat :=
  if spawn_draw f <? 5 / 100
  then (meteors g ++ [Meteor_init (next_ident g) (meteor_draws f)],
        S (next_ident g))
  else (meteors g, next_ident g).

(** The list of meteors each scan of a pass receives. *)
Definition scanned (f : Frame) (g : Game) : option (list Meteor) :=
  let meteors0 := fst (spawn f g) in
  meteors_pass meteors0 meteors0.

(** One pass of the body of [while running]. *)
Definition tick (f : Frame) (g : Game) : option Game :=
  let next := snd (spawn f g) in
  meteors1 <- scanned f g ;;
  spaceship1 <- avoid_meteors (spaceship g) meteors1 ;;
  let tracker1 := track_frame (clock f) (tracker g) spaceship1 meteors1 in
  let running1 := collision_detection spaceship1 meteors1 (running g) in
  let running2 := if quit f then false else running1 in
  Some {| spaceship := spaceship1;
          meteors := meteors1;
          running := running2;
          score := S (score g);
          tracker := tracker1;
          next_ident := next |}.

(** [while running: ...] over the frames supplied. *)
Fixpoint main_loop (frames : list Frame) (g : Game) : option Game :=
  match frames with
  | [] => Some g
  | f :: rest =>
      if running g then (g' <- tick f g ;; main_loop rest g') else Some g
  end.

(** How far [main] gets on the frames supplied: either the loop is still
    going when they run out, and nothing has been written, or [running] has
    been cleared and the report has been saved. *)
Inductive Outcome : Type :=
| still_running (g : Game)
| game_over (g : Game) (files : FileStore).

(** [main]: the loop and, once [while running] has ended, and only then,
    [tracker.save_analytics()] at the clock reading [t_end]. *)
Definition main (t_start : R) (frames : list Frame) (t_end : R)
  (files : FileStore) : option Outcome :=
  g <- main_loop frames (main_start t_start) ;;
  if running g then Some (still_running g)
  else Some (game_over g
               (snd (save_analytics t_end default_filename
                       (tracker g, files)))).

(** ** The stand-alone tracker of [tracking.py] *)

Module Tracking.

(** [tracking.py] does not use the module constants: it reads
    [spaceship.SPACESHIP_SIZE] and [meteor.METEOR_SIZE] off the objects.
    [ship_attr] and [meteor_attr] are those attributes, [None] when the
    object has none ([AttributeError]).  The local [relative_velocity],
    computed and never read, is left out. *)
Definition is_near_miss (self : GameTracker) (spaceship : Spaceship)
  (ship_attr : option R) (meteor_attr : Meteor -> option R)
  (meteor : Meteor) : option bool :=
  let distance := center_distance spaceship meteor in
  if distance <? danger_threshold self then
    a <- ship_attr ;;
    b <- meteor_attr meteor ;;
    Some (distance >? a + b)
  else Some false.

Fixpoint track_loop (current_time : R) (spaceship : Spaceship)
  (ship_attr : option R) (meteor_attr : Meteor -> option R)
  (meteors : list Meteor) (self : GameTracker) : option GameTracker :=
  match meteors with
  | [] => Some self
  | meteor :: rest =>
      hit <- is_near_miss self spaceship ship_attr meteor_attr meteor ;;
      if hit : bool
      then track_loop current_time spaceship ship_attr meteor_attr rest
             (append_event self (make_event current_time spaceship meteor))
      else track_loop current_time spaceship ship_attr meteor_attr rest self
  end.

Definition track_frame (now : R) (self : GameTracker)
  (spaceship : Spaceship) (ship_attr : option R)
  (meteor_attr : Meteor -> option R) (meteors : list Meteor)
  : option GameTracker :=
  let current_time := now - start_time self in
  track_loop current_time spaceship ship_attr meteor_attr meteors self.

End Tracking.

(** ** Vocabulary of the statements *)

(** The test of the threat scan on one meteor. *)
Definition in_range (self : Spaceship) (meteor : Meteor) : bool :=
  (center_distance self meteor <? DETECTION_RADIUS) &&
  (center_distance self meteor >? 0).

(** The trackers a run can hold: created by [__init__], then only changed
    by [track_frame]. *)
Inductive tracked : GameTracker -> Prop :=
| tracked_init : forall t0, tracked (GameTracker_init t0)
| tracked_frame : forall now self s ms,
    tracked self -> tracked (track_frame now self s ms).

(** The live meteors are distinct objects, all allocated already. *)
Definition distinct_objects (g : Game) : Prop :=
  NoDup (map ident (meteors g)) /\
  Forall (fun m => (ident m < next_ident g)%nat) (meteors g).

(** [later g g']: the loop, started in [g], can be in [g'] at the head of a
    pass. *)
Inductive later (g : Game) : Game -> Prop :=
| later_now : later g g
| later_tick : forall g1 g2 f,
    later g g1 -> running g1 = true -> tick f g1 = Some g2 -> later g g2.

Definition reachable (g : Game) : Prop :=
  exists now, later (main_start now) g.

(** ** Scenes used to run the code on concrete inputs *)

(** A meteor at rest at [(px, py)]. *)
Definition meteor_at (px py : R) : Meteor :=
  {| ident := 0; m_x := px; m_y := py; m_velocity_x := 0; m_velocity_y := 0 |}.

(** A craft at rest at [(px, py)]. *)
Definition craft_at (px py : R) : Spaceship :=
  {| x := px; y := py; velocity_x := 0; velocity_y := 0; angle := 0 |}.

(** The first pass of a run, with a meteor spawned on the left edge. *)
Definition first_frame : Frame :=
  {| spawn_draw := 1 / 100;
     meteor_draws := {| d_side := side_left; d_coord := 300;
                        d_angle := 0; d_speed := 2 |};
     clock := 1;
     quit := false |}.

(** ** Drawing the craft *)

(** [math.radians]. *)
Definition radians (d : R) : R := d * PI / 180.

(** The local [points] of [Spaceship.draw]. *)
Definition points (self : Spaceship) : list (R * R) :=
  [ (x self, y self + SPACESHIP_SIZE);
    (x self - SPACESHIP_SIZE, y self - SPACESHIP_SIZE);
    (x self + SPACESHIP_SIZE, y self - SPACESHIP_SIZE) ].

(** The local [rotated_points] of [Spaceship.draw], the polygon handed to
    [pygame.draw.polygon]. *)
Definition rotated_points (self : Spaceship) : list (R * R) :=
  map (fun p : R * R =>
         let (px, py) := p in
         (x self + (px - x self) * cos (radians (angle self))
                 - (py - y self) * sin (radians (angle self)),
          y self + (px - x self) * sin (radians (angle self))
                 + (py - y self) * cos (radians (angle self))))
      (points self).

(** ** More vocabulary *)

(** The craft is inside the field shrunk by its size. *)
Definition in_field (s : Spaceship) : Prop :=
  SPACESHIP_SIZE <= x s <= WIDTH - SPACESHIP_SIZE /\
  SPACESHIP_SIZE <= y s <= HEIGHT - SPACESHIP_SIZE.

(** The draws of a [Meteor()] are ones [random] can return: a coordinate
    on the chosen edge and a speed from 1 to 3. *)
Definition possible_draws (d : MeteorDraws) : Prop :=
  0 <= d_coord d <=
    match d_side d with
    | side_left | side_right => HEIGHT
    | side_top | side_bottom => WIDTH
    end /\
  1 <= d_speed d <= 3.

(** A pass in which a quit request is pending and no meteor is spawned. *)
Definition quit_frame : Frame :=
  {| spawn_draw := 1 / 2;
     meteor_draws := {| d_side := side_left; d_coord := 300;
                        d_angle := 0; d_speed := 2 |};
     clock := 1;
     quit := true |}.

(** ** A run in which a meteor leaves the field *)

(** A pass with no spawn and no quit request, read at clock [c]. *)
Definition quiet_frame (c : R) : Frame :=
  {| spawn_draw := 1 / 2;
     meteor_draws := {| d_side := side_left; d_coord := 300;
                        d_angle := 0; d_speed := 2 |};
     clock := c;
     quit := false |}.

(** The first pass of the run: a meteor is spawned on the left edge at
    height 300, heading out of the field (angle pi) at speed 3. *)
Definition leaving_frame : Frame :=
  {| spawn_draw := 1 / 100;
     meteor_draws := {| d_side := side_left; d_coord := 300;
                        d_angle := PI; d_speed := 3 |};
     clock := 1;
     quit := false |}.

(** That meteor after [k] updates. *)
Definition drifter (k : nat) : Meteor :=
  {| ident := 0; m_x := - (3 * INR k); m_y := 300;
     m_velocity_x := - 3; m_velocity_y := 0 |}.

(** The state of the run after [k] passes, while the meteor is live. *)
Definition drift_state (k : nat) : Game :=
  {| spaceship := craft_at 400 300;
     meteors := [drifter k];
     running := true;
     score := k;
     tracker := GameTracker_init 0;
     next_ident := 1 |}.

(** ** A run that records two near misses *)

(** Pass [k] of the run.  The first pass spawns a meteor on the left edge
    at the craft's height, heading right (angle 0) at speed 2; pass 50
    spawns one on the right edge at the same height, heading left (angle
    pi) at speed 3; no other pass spawns.  The clock of pass [k] reads
    [k]. *)
Definition duel_frame (k : nat) : Frame :=
  {| spawn_draw := if Nat.eqb k 1 || Nat.eqb k 50 then 1 / 100 else 1 / 2;
     meteor_draws :=
       if Nat.eqb k 50
       then {| d_side := side_right; d_coord := 300;
               d_angle := PI; d_speed := 3 |}
       else {| d_side := side_left; d_coord := 300;
               d_angle := 0; d_speed := 2 |};
     clock := INR k;
     quit := false |}.

(** The first [n] passes. *)
Definition duel_frames (n : nat) : list Frame := map duel_frame (seq 1 n).

(** The two meteors after pass [k]. *)
Definition west (k : nat) : Meteor :=
  {| ident := 0; m_x := 2 * INR k; m_y := 300;
     m_velocity_x := 2; m_velocity_y := 0 |}.

Definition east (k : nat) : Meteor :=
  {| ident := 1; m_x := 947 - 3 * INR k; m_y := 300;
     m_velocity_x := - 3; m_velocity_y := 0 |}.

Definition duel_meteors (k : nat) : list Meteor :=
  if (k <? 50)%nat then [west k] else [west k; east k].

(** The state after pass [k], with the tracker [t]: the two meteors reach
    the detection radius in the same pass, from opposite sides, so that the
    craft stays at rest at the center. *)
Definition duel_state (k : nat) (t : GameTracker) : Game :=
  {| spaceship := craft_at 400 300;
     meteors := duel_meteors k;
     running := true;
     score := k;
     tracker := t;
     next_ident := if (k <? 50)%nat then 1 else 2 |}.

(** ** The velocity computation of [avoid_meteors], over any arithmetic *)

(** The numbers of the program with the constants and operations that the
    velocity computation of [avoid_meteors] reads.  The embedding above
    takes the real numbers with their exact operations; binary64, which is
    what Python computes with, is the instance [F64.binary64] below. *)
Record Arithmetic : Type := mkArithmetic {
  number : Type;
  n_0 : number;
  n_2 : number;
  n_WIDTH : number;
  n_HEIGHT : number;
  n_MAX_SPEED : number;
  n_DETECTION_RADIUS : number;
  n_AVOIDANCE_STRENGTH : number;
  n_CENTERING_STRENGTH : number;
  n_add : number -> number -> number;
  n_sub : number -> number -> number;
  n_mul : number -> number -> number;
  n_div : number -> number -> number;
  n_hypot : number -> number -> number;
  n_lt : number -> number -> bool;
  n_eq : number -> number -> bool
}.

Module Arith.
Section Operations.

Variable A : Arithmetic.

(** [a / b], with [ZeroDivisionError] when [b == 0]. *)
Definition pdiv (a b : number A) : option (number A) :=
  if n_eq A b (n_0 A) then None else Some (n_div A a b).

(** The first loop of [avoid_meteors]: [pos] is the craft's position, a
    meteor is its position, the accumulator is [avoidance_vector] and
    [in_danger]. *)
Fixpoint threat_scan (pos : number A * number A) (meteors : list (number A * number A))
  (acc : (number A * number A) * bool) : option ((number A * number A) * bool) :=
  match meteors with
  | [] => Some acc
  | meteor :: rest =>
      let distance :=
        n_hypot A (n_sub A (fst pos) (fst meteor))
                  (n_sub A (snd pos) (snd meteor)) in
      if n_lt A distance (n_DETECTION_RADIUS A) && n_lt A (n_0 A) distance then
        ux <- pdiv (n_sub A (fst pos) (fst meteor)) distance ;;
        uy <- pdiv (n_sub A (snd pos) (snd meteor)) distance ;;
        threat_scan pos rest
          ((n_add A (fst (fst acc)) ux, n_add A (snd (fst acc)) uy), true)
      else threat_scan pos rest acc
  end.

(** "Normalize and apply avoidance"; [v] is the craft's velocity. *)
Definition apply_avoidance (v avoidance_vector : number A * number A)
  : option (number A * number A) :=
  let length := n_hypot A (fst avoidance_vector) (snd avoidance_vector) in
  if n_lt A (n_0 A) length then
    ux <- pdiv (fst avoidance_vector) length ;;
    uy <- pdiv (snd avoidance_vector) length ;;
    Some (n_add A (fst v) (n_mul A ux (n_AVOIDANCE_STRENGTH A)),
          n_add A (snd v) (n_mul A uy (n_AVOIDANCE_STRENGTH A)))
  else Some v.

(** "If not in danger, move towards the center of the screen". *)
Definition apply_centering (pos v : number A * number A) (in_danger : bool)
  : option (number A * number A) :=
  if negb in_danger then
    let center_x := n_div A (n_WIDTH A) (n_2 A) in
    let center_y := n_div A (n_HEIGHT A) (n_2 A) in
    let dx := n_sub A center_x (fst pos) in
    let dy := n_sub A center_y (snd pos) in
    let norm := n_hypot A dx dy in
    d <- (if negb (n_eq A norm (n_0 A))
          then (dx' <- pdiv dx norm ;; dy' <- pdiv dy norm ;; Some (dx', dy'))
          else Some (dx, dy)) ;;
    Some (n_add A (fst v) (n_mul A (fst d) (n_CENTERING_STRENGTH A)),
          n_add A (snd v) (n_mul A (snd d) (n_CENTERING_STRENGTH A)))
  else Some v.

(** "Limit speed". *)
Definition limit_speed (v : number A * number A) : option (number A * number A) :=
  let speed := n_hypot A (fst v) (snd v) in
  if n_lt A (n_MAX_SPEED A) speed then
    qx <- pdiv (fst v) speed ;;
    qy <- pdiv (snd v) speed ;;
    Some (n_mul A qx (n_MAX_SPEED A), n_mul A qy (n_MAX_SPEED A))
  else Some v.

(** The velocity before the speed limit. *)
Definition steer (pos v : number A * number A) (meteors : list (number A * number A))
  : option (number A * number A) :=
  s <- threat_scan pos meteors ((n_0 A, n_0 A), false) ;;
  v1 <- apply_avoidance v (fst s) ;;
  apply_centering pos v1 (snd s).

(** The velocity [avoid_meteors] leaves: the later steps of the method
    (heading, position, bounds) do not assign it. *)
Definition new_velocity (pos v : number A * number A)
  (meteors : list (number A * number A)) : option (number A * number A) :=
  v2 <- steer pos v meteors ;;
  limit_speed v2.

End Operations.
End Arith.

(** The real numbers with their exact operations. *)
Definition exact_arithmetic : Arithmetic :=
  {| number := R;
     n_0 := 0; n_2 := 2;
     n_WIDTH := WIDTH; n_HEIGHT := HEIGHT; n_MAX_SPEED := MAX_SPEED;
     n_DETECTION_RADIUS := DETECTION_RADIUS;
     n_AVOIDANCE_STRENGTH := AVOIDANCE_STRENGTH;
     n_CENTERING_STRENGTH := CENTERING_STRENGTH;
     n_add := Rplus; n_sub := Rminus; n_mul := Rmult; n_div := Rdiv;
     n_hypot := hypot;
     n_lt := Rltb;
     n_eq := fun a b => negb (a !=? b) |}.



(** ** Binary64 *)

Module F64.
Import QArith PrimFloat FloatOps SpecFloat.

(** The value of a finite float as an integer times a power of two. *)
Definition exact (f : float) : option (Z * Z) :=
  match Prim2SF f with
  | S754_zero _ => Some (0%Z, 0%Z)
  | S754_finite s m e => Some (if s then Zneg m else Zpos m, e)
  | _ => None
  end.

(** The same value as a rational number. *)
Definition to_Q (f : float) : option Q :=
  match exact f with
  | Some (m, e) => Some (inject_Z m * Qpower 2 e)%Q
  | None => None
  end.

(** [math.hypot(a, b)] on floats, taken as the correctly rounded Euclidean
    norm: the square root, rounded to nearest, of the sum of squares
    computed without rounding.  (CPython documents its result as within one
    unit in the last place of this value.) *)
Definition hypot (a b : float) : float :=
  match exact a, exact b with
  | Some (ma, ea), Some (mb, eb) =>
      let e := Z.min (2 * ea) (2 * eb) in
      let n := (ma * ma * 2 ^ (2 * ea - e) + mb * mb * 2 ^ (2 * eb - e))%Z in
      match n with
      | Zpos _ =>
          let '(q, e', l) := SFsqrt_core_binary prec emax n e in
          SF2Prim (binary_round_aux prec emax false q e' l)
      | _ => zero
      end
  | _, _ =>
      if is_infinity a || is_infinity b then infinity else nan
  end.

Local Open Scope float_scope.


Definition rescaled : float * float :=
  (-0x1.3fb8fb399ac2fp+2, 0x1.aa4bf9a223ae9p-3).

(** The square of the exact length of a pair of finite floats. *)
Definition norm_squared (v : float * float) : option Q :=
  match to_Q (fst v), to_Q (snd v) with
  | Some a, Some b => Some (a * a + b * b)%Q
  | _, _ => None
  end.

Local Close Scope float_scope.

End F64.

(** * Properties *)

(** ** Comparisons *)

Lemma Rltb_true (a b : R) : (a <? b) = true <-> a < b.
Proof. unfold Rltb; destruct (Rlt_dec a b); split; intros; auto; discriminate. Qed.

Lemma Rltb_false (a b : R) : (a <? b) = false <-> b <= a.
Proof.
  unfold Rltb; destruct (Rlt_dec a b); split; intros; auto; try discriminate; lra.
Qed.

Lemma Rgtb_true (a b : R) : (a >? b) = true <-> b < a.
Proof. unfold Rgtb; destruct (Rgt_dec a b); split; intros; auto; discriminate. Qed.

Lemma Rgtb_false (a b : R) : (a >? b) = false <-> a <= b.
Proof.
  unfold Rgtb; destruct (Rgt_dec a b); split; intros; auto; try discriminate; lra.
Qed.

Lemma Rneqb_true (a b : R) : (a !=? b) = true <-> a <> b.
Proof. unfold Rneqb; destruct (Req_dec_T a b); split; intros; auto; try discriminate; contradiction. Qed.

Lemma Rneqb_false (a b : R) : (a !=? b) = false <-> a = b.
Proof. unfold Rneqb; destruct (Req_dec_T a b); split; intros; auto; try discriminate; contradiction. Qed.

(** Case analysis on a comparison, keeping the fact it decides. *)
Ltac cmp a b :=
  let H := fresh "Hcmp" in
  destruct (Rltb a b) eqn:H;
  [ apply Rltb_true in H | apply Rltb_false in H ].

Ltac cmpg a b :=
  let H := fresh "Hcmp" in
  destruct (Rgtb a b) eqn:H;
  [ apply Rgtb_true in H | apply Rgtb_false in H ].

(** ** The Euclidean norm *)

Lemma sum_squares_nonneg (a b : R) : 0 <= a * a + b * b.
Proof. nra. Qed.

Lemma hypot_nonneg (a b : R) : 0 <= hypot a b.
Proof. apply sqrt_pos. Qed.


Lemma hypot_zero (a b : R) : hypot a b = 0 <-> a = 0 /\ b = 0.
Proof.
  split.
  - intros H. apply sqrt_eq_0 in H; [nra | apply sum_squares_nonneg].
  - intros [-> ->]. unfold hypot.
    replace (0 * 0 + 0 * 0) with 0 by ring. apply sqrt_0.
Qed.

Lemma hypot_axis_x (a : R) : 0 <= a -> hypot a 0 = a.
Proof.
  intros Ha. unfold hypot. apply sqrt_lem_1; nra.
Qed.

Lemma hypot_axis_x_neg (a : R) : a <= 0 -> hypot a 0 = - a.
Proof.
  intros Ha. unfold hypot. apply sqrt_lem_1; nra.
Qed.


(** Scaling both components by [k >= 0] scales the norm by [k]. *)
Lemma hypot_scale (k a b : R) : 0 <= k -> hypot (k * a) (k * b) = k * hypot a b.
Proof.
  intros Hk. unfold hypot. apply sqrt_lem_1.
  - apply sum_squares_nonneg.
  - apply Rmult_le_pos; [exact Hk | apply sqrt_pos].
  - transitivity (k * k * (sqrt (a * a + b * b) * sqrt (a * a + b * b))); [ring|].
    rewrite sqrt_sqrt by apply sum_squares_nonneg. ring.
Qed.

(** A vector divided by its non-zero norm has norm one. *)
Lemma hypot_unit (a b : R) :
  hypot a b <> 0 -> hypot (a / hypot a b) (b / hypot a b) = 1.
Proof.
  intros Hn.
  assert (Hpos : 0 < hypot a b) by (pose proof (hypot_nonneg a b); lra).
  replace (a / hypot a b) with (/ hypot a b * a) by (field; exact Hn).
  replace (b / hypot a b) with (/ hypot a b * b) by (field; exact Hn).
  rewrite hypot_scale.
  - field; exact Hn.
  - left. apply Rinv_0_lt_compat, Hpos.
Qed.

(** ** The near-miss tracker *)

Lemma is_near_miss_iff (self : GameTracker) (s : Spaceship) (m : Meteor) :
  is_near_miss self s m = true <->
  SPACESHIP_SIZE + METEOR_SIZE < center_distance s m < danger_threshold self.
Proof.
  unfold is_near_miss. rewrite andb_true_iff, Rltb_true, Rgtb_true. tauto.
Qed.

Lemma track_loop_thresholds (t : R) (s : Spaceship) (ms : list Meteor) :
  forall self,
    start_time (track_loop t s ms self) = start_time self /\
    danger_threshold (track_loop t s ms self) = danger_threshold self /\
    critical_threshold (track_loop t s ms self) = critical_threshold self.
Proof.
  induction ms as [|m ms IH]; intros self; simpl; [tauto|].
  destruct (is_near_miss self s m); [|apply IH].
  destruct (IH (append_event self (make_event t s m))) as (H1 & H2 & H3).
  simpl in *. tauto.
Qed.

(** The loop appends, in meteor order, the events of the meteors that pass
    the test. *)
Lemma track_loop_events (t : R) (s : Spaceship) (ms : list Meteor) :
  forall self,
    near_misses (track_loop t s ms self) =
    near_misses self ++ map (make_event t s) (filter (is_near_miss self s) ms).
Proof.
  induction ms as [|m ms IH]; intros self; simpl.
  - now rewrite app_nil_r.
  - destruct (is_near_miss self s m) eqn:Hm.
    + rewrite IH. simpl. rewrite <- app_assoc. simpl. reflexivity.
    + apply IH.
Qed.

Lemma severity_cases (self : GameTracker) (e : NearMissEvent) :
  (distance e < critical_threshold self ->
   severity (report_entry self e) = "CRITICAL"%string) /\
  (critical_threshold self <= distance e ->
   severity (report_entry self e) = "WARNING"%string).
Proof.
  unfold report_entry; simpl.
  cmp (distance e) (critical_threshold self); split; intros; auto; lra.
Qed.

Lemma report_entry_thresholds (self self' : GameTracker) (e : NearMissEvent) :
  critical_threshold self' = critical_threshold self ->
  report_entry self' e = report_entry self e.
Proof. intros H. unfold report_entry. now rewrite H. Qed.

(** C1.  In one call of [track_frame] the tracker appends, in scan order,
    one event for each scanned meteor whose center distance to the craft is
    strictly between [SPACESHIP_SIZE + METEOR_SIZE] and the danger
    threshold, and for no other meteor.  Every report built afterwards is
    the earlier report followed by one entry per appended event, in the
    same order, and its count grows by their number: so each such meteor
    has an entry with its distance, its position and the time of the call,
    tagged CRITICAL when that distance is strictly below the critical
    threshold and WARNING otherwise; and every entry of the report is
    tagged by that rule. *)
Theorem C1_near_miss_band :
  forall (now : R) (self : GameTracker) (s : Spaceship) (ms : list Meteor),
    let self' := track_frame now self s ms in
    let emitted :=
      map (make_event (now - start_time self) s)
          (filter (is_near_miss self s) ms) in
    near_misses self' = near_misses self ++ emitted /\
    (forall m, In m ms ->
       (In (make_event (now - start_time self) s m) emitted <->
        SPACESHIP_SIZE + METEOR_SIZE < center_distance s m
          < danger_threshold self)) /\
    (forall t r, In r (report_near_misses (build_analytics t self')) ->
       (r_distance r < critical_threshold self ->
        severity r = "CRITICAL"%string) /\
       (critical_threshold self <= r_distance r ->
        severity r = "WARNING"%string)) /\
    (forall t,
       report_near_misses (build_analytics t self') =
         report_near_misses (build_analytics t self) ++
         map (report_entry self) emitted /\
       total_near_misses (build_analytics t self') =
         (total_near_misses (build_analytics t self) +
          List.length (filter (is_near_miss self s) ms))%nat) /\
    (forall t m, In m ms ->
       SPACESHIP_SIZE + METEOR_SIZE < center_distance s m
         < danger_threshold self ->
       exists r,
         In r (report_near_misses (build_analytics t self')) /\
         r_timestamp r = now - start_time self /\
         r_distance r = center_distance s m /\
         r_ship_position r = (x s, y s) /\
         r_meteor_position r = (m_x m, m_y m) /\
         (center_distance s m < critical_threshold self ->
          severity r = "CRITICAL"%string) /\
         (critical_threshold self <= center_distance s m ->
          severity r = "WARNING"%string)).
Proof.
  intros now self s ms self' emitted.
  assert (Hev : near_misses self' = near_misses self ++ emitted)
    by apply track_loop_events.
  assert (Hc : critical_threshold self' = critical_threshold self).
  { destruct (track_loop_thresholds (now - start_time self) s ms self)
      as (_ & _ & Hc). exact Hc. }
  assert (Hrep : forall t,
            report_near_misses (build_analytics t self') =
            report_near_misses (build_analytics t self) ++
            map (report_entry self) emitted).
  { intros t. unfold build_analytics. simpl.
    rewrite Hev, map_app. f_equal; apply map_ext; intros e;
      now apply report_entry_thresholds. }
  split; [exact Hev|]. split; [|split; [|split; [|]]].
  - intros m Hin. split.
    + unfold emitted. rewrite in_map_iff.
      intros (m' & Heq & Hin'). apply filter_In in Hin' as [_ Hpass].
      apply is_near_miss_iff in Hpass.
      assert (Hd : center_distance s m' = center_distance s m)
        by (change (distance (make_event (now - start_time self) s m') =
                    distance (make_event (now - start_time self) s m));
            now rewrite Heq).
      rewrite <- Hd. exact Hpass.
    + intros Hband. apply in_map. apply filter_In. split; [assumption|].
      apply is_near_miss_iff. exact Hband.
  - intros t r Hr. unfold build_analytics in Hr. simpl in Hr.
    apply in_map_iff in Hr. destruct Hr as (e & <- & _).
    simpl r_distance. rewrite <- Hc. apply severity_cases.
  - intros t. split; [apply Hrep|].
    unfold build_analytics. simpl. rewrite Hev, length_app.
    unfold emitted. now rewrite length_map.
  - intros t m Hin Hband.
    exists (report_entry self (make_event (now - start_time self) s m)).
    split.
    + rewrite Hrep. apply in_or_app. right. apply in_map.
      unfold emitted. apply in_map. apply filter_In. split; [exact Hin|].
      now apply is_near_miss_iff.
    + simpl. repeat split; try reflexivity;
        apply (severity_cases self (make_event (now - start_time self) s m)).
Qed.

(** ** Running the tracker on concrete inputs *)

(** A meteor on the craft's row, [d] to its right, is at distance [d]. *)
Lemma center_distance_east (s : Spaceship) (m : Meteor) (d : R) :
  0 <= d -> m_x m = x s + d -> m_y m = y s -> center_distance s m = d.
Proof.
  intros Hd Hx Hy. unfold center_distance. rewrite Hx, Hy.
  replace (x s - (x s + d)) with (- d) by ring.
  replace (y s - y s) with 0 by ring.
  rewrite hypot_axis_x_neg by lra. ring.
Qed.

(** A tracker fresh from [__init__] scanning one meteor. *)
Lemma fresh_tracker_single (t0 now : R) (s : Spaceship) (m : Meteor) :
  near_misses (track_frame now (GameTracker_init t0) s [m]) =
  if (center_distance s m <? 50) && (center_distance s m >? 35)
  then [make_event (now - t0) s m] else [].
Proof.
  unfold track_frame. simpl. unfold is_near_miss. simpl.
  unfold SPACESHIP_SIZE, METEOR_SIZE.
  replace (10 + 25) with 35 by ring.
  destruct ((center_distance s m <? 50) && (center_distance s m >? 35));
    reflexivity.
Qed.

(** Just inside the danger threshold: one event, tagged WARNING. *)
Lemma warning_below_danger (t0 now eps : R) (s : Spaceship) (m : Meteor) :
  0 < eps < 15 -> center_distance s m = 50 - eps ->
  let self' := track_frame now (GameTracker_init t0) s [m] in
  near_misses self' = [make_event (now - t0) s m] /\
  map severity (report_near_misses (build_analytics now self')) =
    ["WARNING"%string].
Proof.
  intros Heps Hd self'.
  assert (Hn : near_misses self' = [make_event (now - t0) s m]).
  { unfold self'. rewrite fresh_tracker_single, Hd.
    cmp (50 - eps) 50; [|lra]. cmpg (50 - eps) 35; [|lra]. reflexivity. }
  split; [exact Hn|].
  destruct (track_loop_thresholds (now - t0) s [m] (GameTracker_init t0))
    as (_ & _ & Hc).
  change (critical_threshold self' = 35) in Hc.
  unfold build_analytics. simpl report_near_misses. rewrite Hn.
  simpl map. rewrite Hc, Hd.
  cmp (50 - eps) 35; [lra | reflexivity].
Qed.

(** Just outside the danger threshold: no event. *)
Lemma no_event_above_danger (t0 now eps : R) (s : Spaceship) (m : Meteor) :
  0 <= eps -> center_distance s m = 50 + eps ->
  near_misses (track_frame now (GameTracker_init t0) s [m]) = [].
Proof.
  intros Heps Hd. rewrite fresh_tracker_single, Hd.
  cmp (50 + eps) 50; [lra | reflexivity].
Qed.

(** Anywhere at or below the critical threshold: no event either, because
    the critical threshold equals [SPACESHIP_SIZE + METEOR_SIZE]. *)
Lemma no_event_below_critical (t0 now eps : R) (s : Spaceship) (m : Meteor) :
  0 <= eps -> center_distance s m = 35 - eps ->
  near_misses (track_frame now (GameTracker_init t0) s [m]) = [].
Proof.
  intros Heps Hd. rewrite fresh_tracker_single, Hd.
  cmpg (35 - eps) 35; [lra|]. now rewrite andb_false_r.
Qed.

(** C2.  The code at the failing input: with the default thresholds, a
    meteor at distance [critical_threshold - 1/2] from the craft is scanned
    and no event is recorded, so the report has no CRITICAL entry for it
    (the claim expects one CRITICAL event). *)
Theorem C2_no_event_just_below_critical :
  let s := craft_at 400 300 in
  let m := meteor_at (4345 / 10) 300 in
  let self := GameTracker_init 0 in
  center_distance s m = critical_threshold self - 1 / 2 /\
  near_misses (track_frame 1 self s [m]) = [] /\
  report_near_misses (build_analytics 2 (track_frame 1 self s [m])) = [].
Proof.
  intros s m self.
  assert (Hd : center_distance s m = 35 - 1 / 2).
  { apply center_distance_east; simpl; lra. }
  assert (Hn : near_misses (track_frame 1 self s [m]) = []).
  { apply (no_event_below_critical 0 1 (1 / 2)); [lra | exact Hd]. }
  split; [exact Hd|]. split; [exact Hn|].
  unfold build_analytics. simpl report_near_misses. rewrite Hn. reflexivity.
Qed.

(** ** Trackers reachable in a run *)

Lemma tracked_thresholds (self : GameTracker) :
  tracked self -> danger_threshold self = 50 /\ critical_threshold self = 35.
Proof.
  induction 1 as [t0 | now self s ms _ [IHd IHc]]; [simpl; auto|].
  destruct (track_loop_thresholds (now - start_time self) s ms self)
    as (_ & Hd & Hc).
  unfold track_frame. rewrite Hd, Hc. auto.
Qed.

(** C10.  With the default constants every event a run records has a
    distance strictly above 35, and every entry of every report is tagged
    WARNING. *)
Theorem C10_never_critical :
  forall self : GameTracker,
    tracked self ->
    Forall (fun e => 35 < distance e) (near_misses self) /\
    forall now,
      Forall (fun r => severity r = "WARNING"%string)
             (report_near_misses (build_analytics now self)).
Proof.
  intros self Ht.
  assert (Hd : Forall (fun e => 35 < distance e) (near_misses self)).
  { induction Ht as [t0 | now self s ms Ht IH]; [constructor|].
    unfold track_frame. rewrite track_loop_events.
    apply Forall_app. split; [exact IH|].
    apply Forall_forall. intros e He. apply in_map_iff in He.
    destruct He as (m & <- & Hm). apply filter_In in Hm as [_ Hm].
    apply is_near_miss_iff in Hm. simpl.
    unfold SPACESHIP_SIZE, METEOR_SIZE in Hm. lra. }
  split; [exact Hd|].
  intros now. unfold build_analytics. simpl.
  apply Forall_forall. intros r Hr. apply in_map_iff in Hr.
  destruct Hr as (e & <- & He).
  rewrite Forall_forall in Hd. specialize (Hd e He).
  apply severity_cases. destruct (tracked_thresholds self Ht) as [_ ->]. lra.
Qed.

(** A run of one frame that records an event at distance 40. *)
Lemma C10_never_critical_witness :
  let self := track_frame 1 (GameTracker_init 0) (craft_at 400 300)
                [meteor_at 440 300] in
  Forall (fun e => 35 < distance e) (near_misses self) /\
  forall now,
    Forall (fun r => severity r = "WARNING"%string)
           (report_near_misses (build_analytics now self)).
Proof.
  intros self. apply (C10_never_critical self).
  unfold self. apply tracked_frame. apply tracked_init.
Defined.

(** The tracker of the witness holds exactly one event. *)
Lemma one_frame_tracker_events :
  map distance
    (near_misses (track_frame 1 (GameTracker_init 0) (craft_at 400 300)
                    [meteor_at 440 300])) = [40].
Proof.
  assert (Hd : center_distance (craft_at 400 300) (meteor_at 440 300) = 40)
    by (apply center_distance_east; simpl; lra).
  rewrite fresh_tracker_single, Hd.
  cmp 40 50; [|lra]. cmpg 40 35; [|lra]. simpl. now rewrite Hd.
Qed.

(** ** Collision detection *)

Lemma collision_detection_false (s : Spaceship) (ms : list Meteor) :
  collision_detection s ms false = false.
Proof.
  induction ms as [|m ms IH]; simpl; [reflexivity|].
  destruct (center_distance s m <? SPACESHIP_SIZE + METEOR_SIZE); exact IH.
Qed.

Lemma collision_detection_iff (s : Spaceship) (ms : list Meteor) :
  forall running0 : bool,
    collision_detection s ms running0 = false <->
    (running0 = false \/
     Exists (fun m => center_distance s m < SPACESHIP_SIZE + METEOR_SIZE) ms).
Proof.
  induction ms as [|m ms IH]; intros running0; simpl.
  - split; [auto|]. intros [H|H]; [exact H | inversion H].
  - cmp (center_distance s m) (SPACESHIP_SIZE + METEOR_SIZE).
    + split; [|intros _; apply collision_detection_false].
      intros _. right. now constructor.
    + rewrite IH. split.
      * intros [H|H]; [now left | right; now apply Exists_cons_tl].
      * intros [H|H]; [now left|].
        inversion H as [? ? Hm | ? ? Hm]; subst; [lra | now right].
Qed.

(** A pass of the loop ends the run exactly on a quit request or when, after
    the craft has moved, some live meteor is strictly closer than
    [SPACESHIP_SIZE + METEOR_SIZE]. *)
Lemma tick_running (f : Frame) (g g' : Game) :
  tick f g = Some g' ->
  (running g' = false <->
   (quit f = true \/ running g = false \/
    Exists (fun m => center_distance (spaceship g') m
                     < SPACESHIP_SIZE + METEOR_SIZE) (meteors g'))).
Proof.
  unfold tick. intros Ht.
  destruct (scanned f g) as [ms|]; [|discriminate]. simpl in Ht.
  destruct (avoid_meteors (spaceship g) ms) as [s1|]; [|discriminate].
  simpl in Ht. injection Ht as <-. simpl.
  destruct (quit f).
  - split; auto.
  - rewrite collision_detection_iff. split.
    + intros H. right. exact H.
    + intros [H|H]; [discriminate | exact H].
Qed.

(** C3, as the code has it.  The collision loop clears [running] exactly
    when some scanned meteor is at a distance strictly below
    [SPACESHIP_SIZE + METEOR_SIZE] (or [running] was already cleared); a
    meteor at exactly that distance, or beyond it, does not end the run. *)
Theorem C3_collision_is_strict :
  forall (s : Spaceship) (ms : list Meteor) (running0 : bool),
    (collision_detection s ms running0 = false <->
     (running0 = false \/
      Exists (fun m => center_distance s m < SPACESHIP_SIZE + METEOR_SIZE)
             ms)) /\
    forall m eps,
      0 <= eps ->
      center_distance s m = SPACESHIP_SIZE + METEOR_SIZE + eps ->
      collision_detection s [m] running0 = running0.
Proof.
  intros s ms running0. split; [apply collision_detection_iff|].
  intros m eps Heps Hd. simpl. rewrite Hd.
  cmp (SPACESHIP_SIZE + METEOR_SIZE + eps) (SPACESHIP_SIZE + METEOR_SIZE);
    [lra | reflexivity].
Qed.

(** C3, the claim refuted: craft and meteor exactly
    [SPACESHIP_SIZE + METEOR_SIZE] apart, and the run goes on. *)
Lemma C3_touching_does_not_end_run :
  center_distance (craft_at 400 300) (meteor_at 435 300) =
    SPACESHIP_SIZE + METEOR_SIZE /\
  collision_detection (craft_at 400 300) [meteor_at 435 300] true = true.
Proof.
  assert (Hd : center_distance (craft_at 400 300) (meteor_at 435 300) = 35)
    by (apply center_distance_east; simpl; lra).
  split.
  - rewrite Hd. unfold SPACESHIP_SIZE, METEOR_SIZE. lra.
  - simpl. rewrite Hd.
    cmp 35 (SPACESHIP_SIZE + METEOR_SIZE); [|reflexivity].
    unfold SPACESHIP_SIZE, METEOR_SIZE in *. lra.
Qed.

(** ** The analytics report *)

(** The entries and the count of a report do not depend on when it is
    built. *)
Lemma report_entries_clock_free (now1 now2 : R) (self : GameTracker) :
  total_near_misses (build_analytics now1 self) =
    total_near_misses (build_analytics now2 self) /\
  report_near_misses (build_analytics now1 self) =
    report_near_misses (build_analytics now2 self).
Proof. split; reflexivity. Qed.

(** C7, as the code has it.  [save_analytics] leaves the tracker as it was
    and writes the report to the file; two reports built from the same
    tracker have the same event count and the same entries in the same
    order with the same severity tags, one entry per recorded event; their
    [total_runtime] fields are the two clock readings minus the start time,
    so they differ by the time elapsed between the two calls. *)
Theorem C7_report_rebuild :
  forall (now1 now2 : R) (f1 f2 : string) (self : GameTracker)
         (files : FileStore),
    let st1 := save_analytics now1 f1 (self, files) in
    let st2 := save_analytics now2 f2 st1 in
    fst st1 = self /\ fst st2 = self /\
    snd st2 =
      (f2, build_analytics now2 self) :: (f1, build_analytics now1 self)
        :: files /\
    total_near_misses (build_analytics now1 self) =
      total_near_misses (build_analytics now2 self) /\
    total_near_misses (build_analytics now1 self) =
      List.length (near_misses self) /\
    report_near_misses (build_analytics now1 self) =
      report_near_misses (build_analytics now2 self) /\
    map r_distance (report_near_misses (build_analytics now1 self)) =
      map distance (near_misses self) /\
    total_runtime (build_analytics now2 self) -
      total_runtime (build_analytics now1 self) = now2 - now1.
Proof.
  intros now1 now2 f1 f2 self files st1 st2. unfold st2, st1. simpl.
  repeat split; try reflexivity.
  - rewrite map_map. simpl. reflexivity.
  - ring.
Qed.

(** C7, the claim refuted: the same tracker, with no event recorded in
    between, reported at two readings of the clock gives two different
    reports. *)
Lemma C7_total_runtime_is_live :
  build_analytics 1 (GameTracker_init 0) <>
  build_analytics 2 (GameTracker_init 0).
Proof.
  intros H.
  assert (Ht : total_runtime (build_analytics 1 (GameTracker_init 0)) =
               total_runtime (build_analytics 2 (GameTracker_init 0)))
    by (rewrite H; reflexivity).
  simpl in Ht. lra.
Qed.

(** ** The autopilot: no stage faults *)

Lemma pdiv_nonzero (a b : R) : b <> 0 -> pdiv a b = Some (a / b).
Proof.
  intros Hb. unfold pdiv. destruct (Req_dec_T b 0); [contradiction | reflexivity].
Qed.

Lemma in_range_iff (self : Spaceship) (m : Meteor) :
  in_range self m = true <-> 0 < center_distance self m < DETECTION_RADIUS.
Proof.
  unfold in_range. rewrite andb_true_iff, Rltb_true, Rgtb_true. tauto.
Qed.

Lemma existsb_in_range (self : Spaceship) (ms : list Meteor) :
  existsb (in_range self) ms = true <->
  Exists (fun m => 0 < center_distance self m < DETECTION_RADIUS) ms.
Proof.
  rewrite existsb_exists, Exists_exists.
  split; intros (m & Hin & Hm); exists m; (split; [exact Hin|]);
    now apply in_range_iff.
Qed.

(** The scan never faults; it raises [in_danger] exactly when a meteor is
    in range, and leaves the accumulator alone when none is. *)
Lemma threat_scan_total (self : Spaceship) (ms : list Meteor) :
  forall acc, exists acc',
    threat_scan self ms acc = Some acc' /\
    in_danger acc' = in_danger acc || existsb (in_range self) ms /\
    (existsb (in_range self) ms = false -> acc' = acc).
Proof.
  induction ms as [|m ms IH]; intros acc; simpl.
  - exists acc. rewrite orb_false_r. auto.
  - fold (in_range self m). destruct (in_range self m) eqn:Hr.
    + apply in_range_iff in Hr.
      rewrite !pdiv_nonzero by lra. simpl.
      match goal with |- context [threat_scan self ms ?a] =>
        destruct (IH a) as (acc' & Hs & Hd & _) end.
      exists acc'. split; [exact Hs|]. split.
      * rewrite Hd. simpl. now rewrite orb_true_r.
      * discriminate.
    + destruct (IH acc) as (acc' & Hs & Hd & Hsame).
      exists acc'. simpl. auto.
Qed.

Lemma set_velocity_same (self : Spaceship) :
  set_velocity self (velocity_x self) (velocity_y self) = self.
Proof. destruct self; reflexivity. Qed.

(** The avoidance step never faults: it adds nothing when the summed
    vector has length zero, and otherwise the summed vector scaled to
    length [AVOIDANCE_STRENGTH]. *)
Lemma apply_avoidance_total (self : Spaceship) (v : R * R) :
  (hypot (fst v) (snd v) = 0 /\ apply_avoidance self v = Some self) \/
  (hypot (fst v) (snd v) <> 0 /\
   apply_avoidance self v =
     Some (set_velocity self
             (velocity_x self +
              fst v / hypot (fst v) (snd v) * AVOIDANCE_STRENGTH)
             (velocity_y self +
              snd v / hypot (fst v) (snd v) * AVOIDANCE_STRENGTH))).
Proof.
  unfold apply_avoidance.
  pose proof (hypot_nonneg (fst v) (snd v)) as Hn.
  cmpg (hypot (fst v) (snd v)) 0.
  - right. split; [lra|]. rewrite !pdiv_nonzero by lra. reflexivity.
  - left. split; [lra | reflexivity].
Qed.

(** The centering step never faults. *)
Lemma apply_centering_total (self : Spaceship) :
  let dx := WIDTH / 2 - x self in
  let dy := HEIGHT / 2 - y self in
  apply_centering self true = Some self /\
  ((hypot dx dy = 0 /\
    apply_centering self false =
      Some (set_velocity self
              (velocity_x self + dx * CENTERING_STRENGTH)
              (velocity_y self + dy * CENTERING_STRENGTH))) \/
   (hypot dx dy <> 0 /\
    apply_centering self false =
      Some (set_velocity self
              (velocity_x self + dx / hypot dx dy * CENTERING_STRENGTH)
              (velocity_y self + dy / hypot dx dy * CENTERING_STRENGTH)))).
Proof.
  intros dx dy. split; [reflexivity|].
  unfold apply_centering. simpl negb. cbv zeta. fold dx dy.
  destruct (hypot dx dy !=? 0) eqn:Hn.
  - apply Rneqb_true in Hn. right. split; [exact Hn|].
    rewrite !pdiv_nonzero by exact Hn. reflexivity.
  - apply Rneqb_false in Hn. left. split; [exact Hn | reflexivity].
Qed.

(** The speed limit never faults. *)
Lemma limit_speed_total (self : Spaceship) :
  let speed := hypot (velocity_x self) (velocity_y self) in
  (speed <= MAX_SPEED /\ limit_speed self = Some self) \/
  (MAX_SPEED < speed /\
   limit_speed self =
     Some (set_velocity self (velocity_x self / speed * MAX_SPEED)
                             (velocity_y self / speed * MAX_SPEED))).
Proof.
  intros speed. unfold limit_speed. fold speed.
  cmpg speed MAX_SPEED.
  - right. split; [exact Hcmp|].
    unfold MAX_SPEED in Hcmp. rewrite !pdiv_nonzero by lra. reflexivity.
  - left. split; [exact Hcmp | reflexivity].
Qed.

Lemma steer_total (self : Spaceship) (ms : list Meteor) :
  exists self', steer self ms = Some self'.
Proof.
  unfold steer.
  destruct (threat_scan_total self ms scan_start) as (s & -> & _). simpl.
  destruct (apply_avoidance_total self (avoidance_vector s))
    as [[_ ->] | [_ ->]]; simpl.
  - destruct (in_danger s).
    + eexists; apply (apply_centering_total self).
    + destruct (apply_centering_total self) as [_ [[_ ->] | [_ ->]]];
        eexists; reflexivity.
  - match goal with |- context [apply_centering ?s1 _] =>
      destruct (in_danger s);
      [ eexists; apply (apply_centering_total s1)
      | destruct (apply_centering_total s1) as [_ [[_ ->] | [_ ->]]];
        eexists; reflexivity ] end.
Qed.

(** C9.  No stage of the autopilot update divides by zero: for every craft
    and every list of meteors the threat scan (from any accumulator), the
    avoidance step (for any summed vector, the zero vector included), the
    centering step (for any craft position, the field center included), the
    speed limit and the whole update return a result.  On a summed vector of
    length zero the avoidance step is skipped, and at the field center the
    centering step adds the zero vector: both return the craft as it was. *)
Theorem C9_no_division_fault :
  forall (self : Spaceship) (ms : list Meteor),
    (forall acc, exists acc', threat_scan self ms acc = Some acc') /\
    (forall v, exists self', apply_avoidance self v = Some self') /\
    (forall d, exists self', apply_centering self d = Some self') /\
    (exists self', limit_speed self = Some self') /\
    (exists self', avoid_meteors self ms = Some self') /\
    (forall v, hypot (fst v) (snd v) = 0 ->
       apply_avoidance self v = Some self) /\
    (x self = WIDTH / 2 -> y self = HEIGHT / 2 ->
       apply_centering self false = Some self).
Proof.
  intros self ms.
  assert (Hzero : forall v, hypot (fst v) (snd v) = 0 ->
                    apply_avoidance self v = Some self).
  { intros v Hv. destruct (apply_avoidance_total self v) as [[_ H] | [H _]];
      [exact H | contradiction]. }
  assert (Hcenter : x self = WIDTH / 2 -> y self = HEIGHT / 2 ->
                    apply_centering self false = Some self).
  { intros Hx Hy.
    assert (Hn : hypot (WIDTH / 2 - x self) (HEIGHT / 2 - y self) = 0)
      by (apply hypot_zero; lra).
    destruct (apply_centering_total self) as [_ [[_ H] | [H _]]];
      [|contradiction].
    rewrite H. destruct self as [sx sy vx vy a]. simpl in *.
    unfold set_velocity. simpl. rewrite Hx, Hy. do 2 f_equal; ring. }
  split; [|split; [|split; [|split; [|split; [|split;
    [exact Hzero | exact Hcenter]]]]]].
  - intros acc. destruct (threat_scan_total self ms acc) as (acc' & H & _).
    now exists acc'.
  - intros v. destruct (apply_avoidance_total self v) as [[_ H] | [_ H]];
      rewrite H; eexists; reflexivity.
  - intros [|].
    + eexists; apply (apply_centering_total self).
    + destruct (apply_centering_total self) as [_ [[_ H] | [_ H]]];
        rewrite H; eexists; reflexivity.
  - destruct (limit_speed_total self) as [[_ H] | [_ H]];
      rewrite H; eexists; reflexivity.
  - unfold avoid_meteors.
    destruct (steer_total self ms) as (s2 & ->). simpl.
    destruct (limit_speed_total s2) as [[_ H] | [_ H]];
      rewrite H; simpl; eexists; reflexivity.
Qed.

(** ** The autopilot: avoidance or centering *)

Lemma scan_start_result (self : Spaceship) (ms : list Meteor) :
  exists s,
    threat_scan self ms scan_start = Some s /\
    (in_danger s = true <->
     Exists (fun m => 0 < center_distance self m < DETECTION_RADIUS) ms) /\
    (in_danger s = false -> avoidance_vector s = (0, 0)).
Proof.
  destruct (threat_scan_total self ms scan_start) as (s & Hs & Hd & Hsame).
  exists s. split; [exact Hs|]. simpl in Hd. split.
  - rewrite Hd. apply existsb_in_range.
  - intros Hf. rewrite Hf in Hd. symmetry in Hd.
    rewrite (Hsame Hd). reflexivity.
Qed.


(** ** The autopilot: speed cap and bounds *)

(** The steps after the speed limit do not touch the velocity. *)
Lemma finish_velocity (self : Spaceship) :
  velocity_x (keep_in_bounds (integrate (update_angle self))) = velocity_x self /\
  velocity_y (keep_in_bounds (integrate (update_angle self))) = velocity_y self.
Proof.
  unfold update_angle.
  destruct ((velocity_x self !=? 0) || (velocity_y self !=? 0));
    split; reflexivity.
Qed.

Lemma avoid_meteors_unfold (self pre : Spaceship) (ms : list Meteor) :
  steer self ms = Some pre ->
  avoid_meteors self ms =
    (self3 <- limit_speed pre ;;
     Some (keep_in_bounds (integrate (update_angle self3)))).
Proof. intros H. unfold avoid_meteors. rewrite H. reflexivity. Qed.

(** The speed cap in exact arithmetic.  With the numbers read as real
    numbers, the update returns a craft whose speed is at most MAX_SPEED,
    whatever the incoming velocity.  When the speed reached after steering
    is within the cap the velocity is kept; when it exceeds MAX_SPEED the
    velocity is that one multiplied by the positive factor
    MAX_SPEED / speed: same direction, length exactly MAX_SPEED. *)
Theorem speed_cap_in_exact_arithmetic :
  forall (self : Spaceship) (ms : list Meteor),
  exists (pre self' : Spaceship),
    steer self ms = Some pre /\
    avoid_meteors self ms = Some self' /\
    hypot (velocity_x self') (velocity_y self') <= MAX_SPEED /\
    let speed := hypot (velocity_x pre) (velocity_y pre) in
    (speed <= MAX_SPEED ->
       velocity_x self' = velocity_x pre /\
       velocity_y self' = velocity_y pre) /\
    (MAX_SPEED < speed ->
       0 < MAX_SPEED / speed /\
       velocity_x self' = MAX_SPEED / speed * velocity_x pre /\
       velocity_y self' = MAX_SPEED / speed * velocity_y pre /\
       hypot (velocity_x self') (velocity_y self') = MAX_SPEED).
Proof.
  intros self ms.
  destruct (steer_total self ms) as (pre & Hpre).
  exists pre. rewrite (avoid_meteors_unfold self pre ms Hpre).
  set (speed := hypot (velocity_x pre) (velocity_y pre)).
  destruct (limit_speed_total pre) as [[Hle Hl] | [Hgt Hl]];
    fold speed in Hle || fold speed in Hgt; rewrite Hl; simpl bind;
    eexists; (split; [exact Hpre|]); (split; [reflexivity|]);
    match goal with |- context [keep_in_bounds (integrate (update_angle ?s3))] =>
      destruct (finish_velocity s3) as [Hvx Hvy] end;
    rewrite Hvx, Hvy.
  - split; [exact Hle|]. cbv zeta. fold speed.
    split; [auto | intros; lra].
  - simpl velocity_x. simpl velocity_y. fold speed.
    assert (Hpos : 0 < speed) by (unfold MAX_SPEED in Hgt; lra).
    assert (Hk : 0 < MAX_SPEED / speed).
    { apply Rdiv_lt_0_compat; [unfold MAX_SPEED; lra | exact Hpos]. }
    assert (Hnorm : hypot (velocity_x pre / speed * MAX_SPEED)
                          (velocity_y pre / speed * MAX_SPEED) = MAX_SPEED).
    { replace (velocity_x pre / speed * MAX_SPEED)
        with (MAX_SPEED / speed * velocity_x pre) by (field; lra).
      replace (velocity_y pre / speed * MAX_SPEED)
        with (MAX_SPEED / speed * velocity_y pre) by (field; lra).
      rewrite hypot_scale by lra. fold speed. field. lra. }
    split; [rewrite Hnorm; lra|]. cbv zeta. fold speed.
    split; [intros; lra|]. intros _.
    split; [exact Hk|]. split; [field; lra|]. split; [field; lra|].
    exact Hnorm.
Qed.

Lemma py_clamp_bounds (lo hi v : R) :
  lo <= hi -> lo <= py_max lo (py_min hi v) <= hi.
Proof.
  intros Hlh. unfold py_max, py_min.
  cmp v hi.
  - cmpg v lo; lra.
  - cmpg hi lo; lra.
Qed.

(** C6.  The update returns a craft whose position is inside the field
    shrunk by the craft's size on every side. *)
Theorem C6_position_in_bounds :
  forall (self : Spaceship) (ms : list Meteor),
  exists self' : Spaceship,
    avoid_meteors self ms = Some self' /\
    SPACESHIP_SIZE <= x self' <= WIDTH - SPACESHIP_SIZE /\
    SPACESHIP_SIZE <= y self' <= HEIGHT - SPACESHIP_SIZE.
Proof.
  intros self ms.
  destruct (steer_total self ms) as (pre & Hpre).
  rewrite (avoid_meteors_unfold self pre ms Hpre).
  destruct (limit_speed_total pre) as [[_ Hl] | [_ Hl]]; rewrite Hl;
    simpl bind; eexists; (split; [reflexivity|]); simpl;
    split; apply py_clamp_bounds;
    unfold SPACESHIP_SIZE, WIDTH, HEIGHT; lra.
Qed.

(** ** The meteor pass *)

Lemma off_screen_iff (m : Meteor) :
  off_screen m = true <->
  (m_x m < - METEOR_SIZE \/ WIDTH + METEOR_SIZE < m_x m \/
   m_y m < - METEOR_SIZE \/ HEIGHT + METEOR_SIZE < m_y m).
Proof.
  unfold off_screen.
  rewrite !orb_true_iff, !Rltb_true, !Rgtb_true. tauto.
Qed.

Lemma ident_update (m : Meteor) : ident (update m) = ident m.
Proof. reflexivity. Qed.

Lemma update_in_place_other (i : nat) (l : list Meteor) :
  ~ In i (map ident l) -> update_in_place i l = l.
Proof.
  induction l as [|m l IH]; simpl; intros Hn; [reflexivity|].
  destruct (Nat.eqb_spec (ident m) i) as [He|He]; [tauto|].
  f_equal. apply IH. tauto.
Qed.

Lemma update_in_place_middle (m : Meteor) (pre rest : list Meteor) :
  NoDup (map ident (pre ++ m :: rest)) ->
  update_in_place (ident m) (pre ++ m :: rest) = pre ++ update m :: rest.
Proof.
  intros Hnd. rewrite map_app in Hnd. simpl in Hnd.
  pose proof (NoDup_remove_2 _ _ _ Hnd) as Hfresh.
  rewrite in_app_iff in Hfresh.
  unfold update_in_place. rewrite map_app. simpl.
  rewrite Nat.eqb_refl.
  fold (update_in_place (ident m) pre). fold (update_in_place (ident m) rest).
  rewrite !update_in_place_other by tauto. reflexivity.
Qed.

Lemma list_remove_middle (m : Meteor) (pre rest : list Meteor) :
  ~ In (ident m) (map ident pre) ->
  list_remove (ident m) (pre ++ m :: rest) = Some (pre ++ rest).
Proof.
  induction pre as [|p pre IH]; simpl; intros Hn.
  - now rewrite Nat.eqb_refl.
  - destruct (Nat.eqb_spec (ident p) (ident m)) as [He|He]; [tauto|].
    rewrite IH by tauto. reflexivity.
Qed.

(** The loop invariant of the pass: [pre] holds the meteors already
    visited and kept, [rest] those still to visit. *)
Lemma meteors_pass_invariant (rest : list Meteor) :
  forall pre,
    NoDup (map ident (pre ++ rest)) ->
    meteors_pass rest (pre ++ rest) =
      Some (pre ++ filter (fun m => negb (off_screen m)) (map update rest)).
Proof.
  induction rest as [|m rest IH]; intros pre Hnd; simpl.
  - reflexivity.
  - rewrite update_in_place_middle by exact Hnd.
    assert (Hnd' : NoDup (map ident (pre ++ rest))).
    { rewrite map_app in *. simpl in Hnd. now apply NoDup_remove_1 in Hnd. }
    assert (Hfresh : ~ In (ident m) (map ident pre)).
    { rewrite map_app in Hnd. simpl in Hnd.
      apply NoDup_remove_2 in Hnd. rewrite in_app_iff in Hnd. tauto. }
    destruct (off_screen (update m)) eqn:Hoff; simpl.
    + pose proof (list_remove_middle (update m) pre rest Hfresh) as Hr.
      rewrite ident_update in Hr. rewrite Hr.
      simpl. apply IH. exact Hnd'.
    + replace (pre ++ update m :: rest) with ((pre ++ [update m]) ++ rest)
        by (rewrite <- app_assoc; reflexivity).
      rewrite IH.
      * rewrite <- app_assoc. reflexivity.
      * rewrite <- app_assoc. simpl.
        rewrite map_app in *. simpl. exact Hnd.
Qed.

(** On distinct objects the pass returns, in order, the updated meteors
    that are not off screen. *)
Lemma meteors_pass_filter (ms : list Meteor) :
  NoDup (map ident ms) ->
  meteors_pass ms ms =
    Some (filter (fun m => negb (off_screen m)) (map update ms)).
Proof. intros Hnd. apply (meteors_pass_invariant ms []). exact Hnd. Qed.

Lemma NoDup_map_injective {A B : Type} (f : A -> B) (l : list A) (a b : A) :
  NoDup (map f l) -> In a l -> In b l -> f a = f b -> a = b.
Proof.
  induction l as [|c l IH]; simpl; intros Hnd Ha Hb Hf; [contradiction|].
  inversion Hnd as [|? ? Hc Hnd']; subst.
  destruct Ha as [->|Ha], Hb as [->|Hb]; auto.
  - exfalso. apply Hc. rewrite Hf. now apply in_map.
  - exfalso. apply Hc. rewrite <- Hf. now apply in_map.
Qed.

(** A meteor of the list survives the pass exactly when its updated
    position is not off screen. *)
Lemma survivor_iff (ms : list Meteor) (m : Meteor) :
  NoDup (map ident ms) -> In m ms ->
  (In (ident m)
      (map ident (filter (fun m => negb (off_screen m)) (map update ms))) <->
   off_screen (update m) = false).
Proof.
  intros Hnd Hin. split.
  - intros Hi. apply in_map_iff in Hi. destruct Hi as (u & Hid & Hu).
    apply filter_In in Hu as [Hu Hon]. apply in_map_iff in Hu.
    destruct Hu as (m1 & <- & Hm1).
    rewrite ident_update in Hid.
    rewrite <- (NoDup_map_injective ident ms m1 m Hnd Hm1 Hin Hid).
    now apply negb_true_iff.
  - intros Hoff. rewrite <- (ident_update m). apply in_map.
    apply filter_In. split; [now apply in_map | now rewrite Hoff].
Qed.

(** ** Runs of the game loop *)

Lemma avoid_meteors_total (self : Spaceship) (ms : list Meteor) :
  exists self', avoid_meteors self ms = Some self'.
Proof.
  destruct (steer_total self ms) as (pre & Hpre).
  rewrite (avoid_meteors_unfold self pre ms Hpre).
  destruct (limit_speed_total pre) as [[_ ->] | [_ ->]];
    simpl; eexists; reflexivity.
Qed.

Lemma NoDup_snoc {A : Type} (l : list A) (a : A) :
  NoDup l -> ~ In a l -> NoDup (l ++ [a]).
Proof.
  intros Hnd Ha.
  apply (NoDup_Add (a := a) (l := l)).
  - rewrite <- (app_nil_r l) at 1. apply Add_app.
  - split; assumption.
Qed.

Lemma spawn_distinct (f : Frame) (g : Game) :
  distinct_objects g ->
  NoDup (map ident (fst (spawn f g))) /\
  Forall (fun m => (ident m < snd (spawn f g))%nat) (fst (spawn f g)) /\
  (next_ident g <= snd (spawn f g))%nat.
Proof.
  intros [Hnd Hlt]. unfold spawn.
  destruct (spawn_draw f <? 5 / 100); simpl; [|auto].
  assert (Hid : ident (Meteor_init (next_ident g) (meteor_draws f)) =
                next_ident g)
    by (unfold Meteor_init; destruct (d_side (meteor_draws f)); reflexivity).
  split; [|split; [|lia]].
  - rewrite map_app. simpl. rewrite Hid.
    apply NoDup_snoc; [exact Hnd|].
    + intros Hin. apply in_map_iff in Hin. destruct Hin as (m & Hm & Hin).
      rewrite Forall_forall in Hlt. specialize (Hlt m Hin). lia.
  - apply Forall_app. split.
    + eapply Forall_impl; [|exact Hlt]. simpl. intros; lia.
    + constructor; [rewrite Hid; lia | constructor].
Qed.

Lemma filter_update_distinct (ms : list Meteor) (n : nat) :
  NoDup (map ident ms) ->
  Forall (fun m => (ident m < n)%nat) ms ->
  NoDup (map ident (filter (fun m => negb (off_screen m)) (map update ms))) /\
  Forall (fun m => (ident m < n)%nat)
         (filter (fun m => negb (off_screen m)) (map update ms)).
Proof.
  induction ms as [|m ms IH]; simpl; intros Hnd Hlt.
  - split; constructor.
  - inversion Hnd as [|? ? Hm Hnd']; subst.
    inversion Hlt as [|? ? Hm1 Hlt']; subst.
    destruct (IH Hnd' Hlt') as [IH1 IH2].
    destruct (off_screen (update m)); simpl; [auto|].
    split; [|constructor; assumption].
    constructor; [|exact IH1].
    intros Hin. apply Hm. apply in_map_iff in Hin.
    destruct Hin as (u & Hid & Hu). apply filter_In in Hu as [Hu _].
    apply in_map_iff in Hu. destruct Hu as (m1 & <- & Hm1').
    rewrite <- Hid. rewrite ident_update. now apply in_map.
Qed.

(** One pass of the loop from a state with distinct meteors: it returns,
    and the meteors it leaves (the ones every scan of the pass received)
    are the updated survivors. *)
Lemma tick_result (f : Frame) (g : Game) :
  distinct_objects g ->
  exists g',
    tick f g = Some g' /\
    scanned f g = Some (meteors g') /\
    meteors g' =
      filter (fun m => negb (off_screen m)) (map update (fst (spawn f g))) /\
    next_ident g' = snd (spawn f g) /\
    distinct_objects g'.
Proof.
  intros Hg. destruct (spawn_distinct f g Hg) as (Hnd & Hlt & _).
  unfold tick, scanned. rewrite (meteors_pass_filter _ Hnd). simpl bind.
  match goal with |- context [avoid_meteors ?s ?l] =>
    destruct (avoid_meteors_total s l) as (s1 & ->) end.
  simpl bind. eexists. split; [reflexivity|]. simpl.
  split; [reflexivity|]. split; [reflexivity|]. split; [reflexivity|].
  unfold distinct_objects. simpl.
  now apply filter_update_distinct.
Qed.

Lemma tick_distinct (f : Frame) (g g' : Game) :
  distinct_objects g -> tick f g = Some g' ->
  distinct_objects g' /\ (next_ident g <= next_ident g')%nat /\
  (forall i, In i (map ident (meteors g')) ->
     In i (map ident (meteors g)) \/ (next_ident g <= i)%nat).
Proof.
  intros Hg Ht. destruct (tick_result f g Hg) as (g1 & Ht1 & _ & Hm & Hn & Hd).
  rewrite Ht in Ht1. injection Ht1 as <-.
  destruct (spawn_distinct f g Hg) as (_ & _ & Hle).
  split; [exact Hd|]. split; [lia|].
  intros i Hi. rewrite Hm in Hi. apply in_map_iff in Hi.
  destruct Hi as (u & <- & Hu). apply filter_In in Hu as [Hu _].
  apply in_map_iff in Hu. destruct Hu as (m & <- & Hin).
  rewrite ident_update. unfold spawn in Hin.
  destruct (spawn_draw f <? 5 / 100); simpl in Hin.
  - apply in_app_iff in Hin. destruct Hin as [Hin | [<- | []]].
    + left. now apply in_map.
    + right. unfold Meteor_init.
      destruct (d_side (meteor_draws f)); simpl; lia.
  - left. now apply in_map.
Qed.

Lemma main_start_distinct (now : R) : distinct_objects (main_start now).
Proof. split; simpl; constructor. Qed.

Lemma later_distinct (g g' : Game) :
  distinct_objects g -> later g g' ->
  distinct_objects g' /\ (next_ident g <= next_ident g')%nat.
Proof.
  intros Hg Hl. induction Hl as [|g1 g2 f _ [IH1 IH2] _ Ht]; [auto|].
  destruct (tick_distinct f g1 g2 IH1 Ht) as (H1 & H2 & _).
  split; [exact H1 | lia].
Qed.

Lemma reachable_distinct (g : Game) : reachable g -> distinct_objects g.
Proof.
  intros (now & Hl).
  now apply (later_distinct (main_start now) g (main_start_distinct now)).
Qed.

(** An object that has been allocated and is not live never becomes live
    again. *)
Lemma gone_for_good (g g' : Game) (i : nat) :
  distinct_objects g -> later g g' ->
  (i < next_ident g)%nat -> ~ In i (map ident (meteors g)) ->
  ~ In i (map ident (meteors g')).
Proof.
  intros Hg Hl Hi Hgone.
  induction Hl as [|g1 g2 f Hl IH _ Ht]; [exact Hgone|].
  destruct (later_distinct g g1 Hg Hl) as [Hd1 Hn1].
  destruct (tick_distinct f g1 g2 Hd1 Ht) as (_ & _ & Hids).
  intros Hin. destruct (Hids i Hin) as [H|H]; [now apply IH | lia].
Qed.

(** C8.  In every state a run reaches, one pass of the loop returns, and
    the meteors it leaves, which are the list every scan of that pass
    receives, are the live meteors (a new one included) each moved by its
    velocity, minus those whose new position has x outside
    [-METEOR_SIZE, WIDTH + METEOR_SIZE] or y outside
    [-METEOR_SIZE, HEIGHT + METEOR_SIZE].  A meteor is dropped in the pass
    exactly when its new position is outside; a dropped meteor is in no scan
    of any later pass; a kept meteor's position is its old position plus
    its velocity, unclamped. *)
Theorem C8_off_screen_culling :
  forall (g : Game) (f : Frame),
    reachable g ->
    exists g' : Game,
      tick f g = Some g' /\
      scanned f g = Some (meteors g') /\
      meteors g' =
        filter (fun m => negb (off_screen m))
               (map update (fst (spawn f g))) /\
      (forall m, In m (fst (spawn f g)) ->
         ((m_x m + m_velocity_x m < - METEOR_SIZE \/
           WIDTH + METEOR_SIZE < m_x m + m_velocity_x m \/
           m_y m + m_velocity_y m < - METEOR_SIZE \/
           HEIGHT + METEOR_SIZE < m_y m + m_velocity_y m) <->
          ~ In (ident m) (map ident (meteors g')))) /\
      (forall m, In m (fst (spawn f g)) ->
         ~ In (ident m) (map ident (meteors g')) ->
         forall g'' f' scan,
           later g' g'' -> scanned f' g'' = Some scan ->
           ~ In (ident m) (map ident scan)) /\
      (forall u, In u (meteors g') ->
         exists m, In m (fst (spawn f g)) /\ ident u = ident m /\
           m_x u = m_x m + m_velocity_x m /\
           m_y u = m_y m + m_velocity_y m /\
           m_velocity_x u = m_velocity_x m /\
           m_velocity_y u = m_velocity_y m).
Proof.
  intros g f Hr. apply reachable_distinct in Hr.
  destruct (tick_result f g Hr) as (g' & Ht & Hs & Hm & Hn & Hd).
  destruct (spawn_distinct f g Hr) as (Hnd & Hlt & _).
  exists g'. split; [exact Ht|]. split; [exact Hs|]. split; [exact Hm|].
  split; [|split].
  - intros m Hin. rewrite Hm.
    pose proof (survivor_iff _ m Hnd Hin) as Hsurv.
    pose proof (off_screen_iff (update m)) as Hoff. simpl in Hoff.
    rewrite <- Hoff. rewrite Hsurv.
    destruct (off_screen (update m)); split; intros; congruence.
  - intros m Hin Hgone g'' f' scan Hl Hscan.
    destruct (later_distinct g' g'' Hd Hl) as [Hd'' Hn''].
    destruct (tick_result f' g'' Hd'') as (g3 & Ht3 & Hs3 & _).
    rewrite Hscan in Hs3. injection Hs3 as ->.
    destruct (tick_distinct f' g'' g3 Hd'' Ht3) as (_ & _ & Hids).
    assert (Hi : (ident m < next_ident g')%nat).
    { rewrite Hn. rewrite Forall_forall in Hlt. now apply Hlt. }
    intros Hin3. destruct (Hids _ Hin3) as [H|H]; [|lia].
    revert H. now apply (gone_for_good g' g'').
  - intros u Hu. rewrite Hm in Hu. apply filter_In in Hu as [Hu _].
    apply in_map_iff in Hu. destruct Hu as (m & <- & Hin).
    exists m. simpl. auto 10.
Qed.

(** ** The loop function and the reachability relation *)

(** What the three scans of one pass are given: the list left by the
    meteor pass, and the craft as the autopilot left it. *)
Lemma tick_scans (f : Frame) (g g' : Game) :
  tick f g = Some g' ->
  scanned f g = Some (meteors g') /\
  avoid_meteors (spaceship g) (meteors g') = Some (spaceship g') /\
  tracker g' =
    track_frame (clock f) (tracker g) (spaceship g') (meteors g') /\
  running g' =
    (if quit f then false
     else collision_detection (spaceship g') (meteors g') (running g)) /\
  score g' = S (score g).
Proof.
  unfold tick. intros Ht.
  destruct (scanned f g) as [ms|]; [|discriminate]. simpl in Ht.
  destruct (avoid_meteors (spaceship g) ms) as [s1|] eqn:Ha; [|discriminate].
  simpl in Ht. injection Ht as <-. simpl. auto.
Qed.

(** Every state [main_loop] returns is one the loop can be in. *)
Lemma main_loop_later (frames : list Frame) :
  forall g g', main_loop frames g = Some g' -> later g g'.
Proof.
  induction frames as [|f frames IH]; simpl; intros g g' H.
  - injection H as <-. constructor.
  - destruct (running g) eqn:Hrun; [|injection H as <-; constructor].
    destruct (tick f g) as [g1|] eqn:Ht; [|discriminate]. simpl in H.
    assert (Hstep : later g g1) by (eapply later_tick; eauto; constructor).
    specialize (IH g1 g' H). clear - Hstep IH.
    induction IH as [|g2 g3 f' _ IH' Hr Ht]; [exact Hstep|].
    eapply later_tick; eauto.
Qed.

(** From a state with distinct meteors the loop never faults. *)
Lemma main_loop_total (frames : list Frame) :
  forall g, distinct_objects g -> exists g', main_loop frames g = Some g'.
Proof.
  induction frames as [|f frames IH]; simpl; intros g Hg.
  - now exists g.
  - destruct (running g); [|now exists g].
    destruct (tick_result f g Hg) as (g1 & -> & _ & _ & _ & Hd). simpl.
    now apply IH.
Qed.

(** ** The stand-alone tracker of [tracking.py] *)

(** On objects that carry the two size attributes with the values of the
    module constants, the tracker of [tracking.py] is the tracker of
    [spaceship_game.py]. *)
Lemma tracking_agrees (t : R) (s : Spaceship) (ms : list Meteor) :
  forall self,
    Tracking.track_loop t s (Some SPACESHIP_SIZE) (fun _ => Some METEOR_SIZE)
      ms self = Some (track_loop t s ms self).
Proof.
  induction ms as [|m ms IH]; intros self; simpl; [reflexivity|].
  unfold Tracking.is_near_miss, is_near_miss.
  destruct (center_distance s m <? danger_threshold self); simpl.
  - destruct (center_distance s m >? SPACESHIP_SIZE + METEOR_SIZE); apply IH.
  - apply IH.
Qed.

(** On the objects of [spaceship_game.py], which carry no such attribute,
    it faults as soon as a meteor is inside the danger threshold. *)
Lemma tracking_without_attributes (t : R) (s : Spaceship) (ms : list Meteor) :
  forall self,
    Tracking.track_loop t s None (fun _ => None) ms self =
    if existsb (fun m => center_distance s m <? danger_threshold self) ms
    then None else Some self.
Proof.
  induction ms as [|m ms IH]; intros self; simpl; [reflexivity|].
  unfold Tracking.is_near_miss.
  destruct (center_distance s m <? danger_threshold self); simpl;
    [reflexivity | apply IH].
Qed.

(** ** The autopilot on concrete inputs *)

Lemma in_range_at (d : R) :
  0 < d < 110 -> (d <? DETECTION_RADIUS) && (d >? 0) = true.
Proof.
  intros Hd. apply andb_true_iff. rewrite Rltb_true, Rgtb_true.
  unfold DETECTION_RADIUS. lra.
Qed.

(** Two meteors on opposite sides at the same distance: the summed vector
    is zero, the craft is in danger, and steering changes nothing. *)
Lemma opposing_threats_cancel :
  threat_scan (craft_at 400 300) [meteor_at 350 300; meteor_at 450 300]
    scan_start =
    Some {| avoidance_vector := (0 + (400 - 350) / 50 + (400 - 450) / 50,
                                 0 + (300 - 300) / 50 + (300 - 300) / 50);
            in_danger := true |} /\
  steer (craft_at 400 300) [meteor_at 350 300; meteor_at 450 300] =
    Some (craft_at 400 300).
Proof.
  assert (Hd1 : center_distance (craft_at 400 300) (meteor_at 350 300) = 50).
  { unfold center_distance. simpl.
    replace (400 - 350) with 50 by lra. replace (300 - 300) with 0 by lra.
    apply hypot_axis_x. lra. }
  assert (Hd2 : center_distance (craft_at 400 300) (meteor_at 450 300) = 50)
    by (apply center_distance_east; simpl; lra).
  assert (Hscan :
    threat_scan (craft_at 400 300) [meteor_at 350 300; meteor_at 450 300]
      scan_start =
    Some {| avoidance_vector := (0 + (400 - 350) / 50 + (400 - 450) / 50,
                                 0 + (300 - 300) / 50 + (300 - 300) / 50);
            in_danger := true |}).
  { unfold threat_scan. rewrite Hd1, Hd2.
    rewrite in_range_at by lra. rewrite !pdiv_nonzero by lra. reflexivity. }
  split; [exact Hscan|].
  unfold steer. rewrite Hscan. simpl bind.
  destruct (apply_avoidance_total (craft_at 400 300)
              (0 + (400 - 350) / 50 + (400 - 450) / 50,
               0 + (300 - 300) / 50 + (300 - 300) / 50))
    as [[_ Ha] | [Hl _]].
  - simpl avoidance_vector. rewrite Ha. reflexivity.
  - exfalso. apply Hl. apply hypot_zero. simpl. split; lra.
Qed.

(** A craft at rest at the field center with no meteor around stays where
    it is: the centering direction is the zero vector and is not divided. *)
Lemma idle_at_center :
  avoid_meteors (craft_at 400 300) [] = Some (craft_at 400 300).
Proof.
  assert (Hsteer : steer (craft_at 400 300) [] = Some (craft_at 400 300)).
  { unfold steer. simpl threat_scan. simpl bind.
    destruct (apply_avoidance_total (craft_at 400 300) (0, 0))
      as [[_ Ha] | [Hl _]];
      [|exfalso; apply Hl; now apply hypot_zero].
    simpl avoidance_vector. rewrite Ha. simpl bind. simpl in_danger.
    destruct (apply_centering_total (craft_at 400 300))
      as [_ [[_ Hc] | [Hn _]]].
    - rewrite Hc. unfold set_velocity, craft_at, WIDTH, HEIGHT. simpl.
      f_equal. f_equal; lra.
    - exfalso. apply Hn. apply hypot_zero.
      unfold WIDTH, HEIGHT. simpl. split; lra. }
  rewrite (avoid_meteors_unfold _ _ _ Hsteer).
  destruct (limit_speed_total (craft_at 400 300)) as [[_ Hl] | [Hgt _]].
  - rewrite Hl. simpl bind. unfold update_angle. simpl.
    assert (H0 : (0 !=? 0) = false) by now apply Rneqb_false.
    rewrite H0. simpl.
    unfold keep_in_bounds, integrate, set_position, craft_at. simpl.
    replace (400 + 0) with 400 by lra. replace (300 + 0) with 300 by lra.
    unfold py_max, py_min, WIDTH, HEIGHT, SPACESHIP_SIZE.
    cmp 400 (800 - 10); [|lra]. cmpg 400 10; [|lra].
    cmp 300 (600 - 10); [|lra]. cmpg 300 10; [|lra]. reflexivity.
  - exfalso. simpl in Hgt.
    assert (H0 : hypot 0 0 = 0) by now apply hypot_zero.
    rewrite H0 in Hgt. unfold MAX_SPEED in Hgt. lra.
Qed.

(** ** The meteor pass on concrete inputs *)

(** A meteor that steps past the right margin is dropped; one that steps
    onto the margin stays, at its unclamped position. *)
Lemma meteors_pass_right_margin :
  meteors_pass
    [ {| ident := 0; m_x := 824; m_y := 300;
         m_velocity_x := 2; m_velocity_y := 0 |};
      {| ident := 1; m_x := 823; m_y := 300;
         m_velocity_x := 2; m_velocity_y := 0 |} ]
    [ {| ident := 0; m_x := 824; m_y := 300;
         m_velocity_x := 2; m_velocity_y := 0 |};
      {| ident := 1; m_x := 823; m_y := 300;
         m_velocity_x := 2; m_velocity_y := 0 |} ] =
  Some [ {| ident := 1; m_x := 823 + 2; m_y := 300 + 0;
            m_velocity_x := 2; m_velocity_y := 0 |} ].
Proof.
  rewrite meteors_pass_filter.
  - simpl map. unfold update. simpl.
    assert (H1 : off_screen {| ident := 0; m_x := 824 + 2; m_y := 300 + 0;
                               m_velocity_x := 2; m_velocity_y := 0 |} = true).
    { apply off_screen_iff. simpl. unfold WIDTH, METEOR_SIZE. lra. }
    assert (H2 : off_screen {| ident := 1; m_x := 823 + 2; m_y := 300 + 0;
                               m_velocity_x := 2; m_velocity_y := 0 |} = false).
    { apply not_true_iff_false. rewrite off_screen_iff. simpl.
      unfold WIDTH, HEIGHT, METEOR_SIZE. lra. }
    rewrite H1, H2. reflexivity.
  - simpl. repeat constructor; simpl; intuition discriminate.
Qed.

(** ** The speed cap under rounding *)

Lemma Rgtb_Rltb (a b : R) : (a >? b) = (b <? a).
Proof.
  unfold Rgtb, Rltb. destruct (Rgt_dec a b), (Rlt_dec b a);
    try reflexivity; exfalso; lra.
Qed.

Lemma exact_pdiv (a b : R) : Arith.pdiv exact_arithmetic a b = pdiv a b.
Proof.
  unfold Arith.pdiv, pdiv. simpl. unfold Rneqb.
  destruct (Req_dec_T b 0); reflexivity.
Qed.

Lemma exact_threat_scan (self : Spaceship) (ms : list Meteor) :
  forall acc : Scan,
    Arith.threat_scan exact_arithmetic (x self, y self)
      (map (fun m => (m_x m, m_y m)) ms) (avoidance_vector acc, in_danger acc) =
    option_map (fun s => (avoidance_vector s, in_danger s))
      (threat_scan self ms acc).
Proof.
  induction ms as [|m ms IH]; intros acc; [reflexivity|].
  cbn [map Arith.threat_scan threat_scan]. cbv zeta.
  rewrite !exact_pdiv. unfold center_distance. rewrite Rgtb_Rltb.
  cbn [fst snd exact_arithmetic number n_hypot n_sub n_lt n_0 n_add n_DETECTION_RADIUS].
  destruct ((hypot (x self - m_x m) (y self - m_y m) <? DETECTION_RADIUS) &&
            (0 <? hypot (x self - m_x m) (y self - m_y m))).
  - destruct (pdiv (x self - m_x m) (hypot (x self - m_x m) (y self - m_y m)));
      [|reflexivity].
    destruct (pdiv (y self - m_y m) (hypot (x self - m_x m) (y self - m_y m)));
      [|reflexivity].
    cbn [bind]. exact (IH {| avoidance_vector := _; in_danger := true |}).
  - apply IH.
Qed.

Lemma exact_apply_avoidance (self : Spaceship) (av : R * R) :
  Arith.apply_avoidance exact_arithmetic (velocity_x self, velocity_y self) av =
  option_map (fun s => (velocity_x s, velocity_y s)) (apply_avoidance self av).
Proof.
  unfold Arith.apply_avoidance, apply_avoidance. cbv zeta.
  rewrite !exact_pdiv, Rgtb_Rltb.
  cbn [fst snd exact_arithmetic number n_hypot n_lt n_0 n_add n_mul
       n_AVOIDANCE_STRENGTH].
  destruct (0 <? hypot (fst av) (snd av)); [|reflexivity].
  destruct (pdiv (fst av) (hypot (fst av) (snd av))); [|reflexivity].
  destruct (pdiv (snd av) (hypot (fst av) (snd av))); reflexivity.
Qed.

Lemma exact_apply_centering (self : Spaceship) (d : bool) :
  Arith.apply_centering exact_arithmetic (x self, y self)
    (velocity_x self, velocity_y self) d =
  option_map (fun s => (velocity_x s, velocity_y s)) (apply_centering self d).
Proof.
  unfold Arith.apply_centering, apply_centering. cbv zeta.
  rewrite !exact_pdiv.
  cbn [fst snd exact_arithmetic number n_hypot n_eq n_0 n_2 n_add n_sub n_mul n_div
       n_WIDTH n_HEIGHT n_CENTERING_STRENGTH].
  destruct d; [reflexivity|]. cbn [negb]. rewrite negb_involutive.
  destruct (hypot (WIDTH / 2 - x self) (HEIGHT / 2 - y self) !=? 0);
    [|reflexivity].
  destruct (pdiv (WIDTH / 2 - x self)
              (hypot (WIDTH / 2 - x self) (HEIGHT / 2 - y self)));
    [|reflexivity].
  destruct (pdiv (HEIGHT / 2 - y self)
              (hypot (WIDTH / 2 - x self) (HEIGHT / 2 - y self)));
    reflexivity.
Qed.

Lemma exact_limit_speed (self : Spaceship) :
  Arith.limit_speed exact_arithmetic (velocity_x self, velocity_y self) =
  option_map (fun s => (velocity_x s, velocity_y s)) (limit_speed self).
Proof.
  unfold Arith.limit_speed, limit_speed. cbv zeta.
  rewrite !exact_pdiv, Rgtb_Rltb.
  cbn [fst snd exact_arithmetic number n_hypot n_lt n_mul n_MAX_SPEED].
  destruct (MAX_SPEED <? hypot (velocity_x self) (velocity_y self));
    [|reflexivity].
  destruct (pdiv (velocity_x self) (hypot (velocity_x self) (velocity_y self)));
    [|reflexivity].
  destruct (pdiv (velocity_y self) (hypot (velocity_x self) (velocity_y self)));
    reflexivity.
Qed.

Lemma apply_avoidance_position (self self1 : Spaceship) (av : R * R) :
  apply_avoidance self av = Some self1 -> x self1 = x self /\ y self1 = y self.
Proof.
  unfold apply_avoidance. cbv zeta.
  destruct (hypot (fst av) (snd av) >? 0).
  - destruct (pdiv (fst av) _); [|discriminate].
    destruct (pdiv (snd av) _); [|discriminate].
    intros [= <-]. split; reflexivity.
  - intros [= <-]. split; reflexivity.
Qed.

(** The generic velocity computation, taken at the exact arithmetic of the
    real numbers, is the velocity of [avoid_meteors]. *)
Lemma new_velocity_exact (self : Spaceship) (ms : list Meteor) :
  Arith.new_velocity exact_arithmetic (x self, y self)
    (velocity_x self, velocity_y self) (map (fun m => (m_x m, m_y m)) ms) =
  option_map (fun s => (velocity_x s, velocity_y s)) (avoid_meteors self ms).
Proof.
  unfold Arith.new_velocity, Arith.steer, avoid_meteors, steer.
  change ((n_0 exact_arithmetic, n_0 exact_arithmetic), false)
    with (avoidance_vector scan_start, in_danger scan_start).
  rewrite exact_threat_scan.
  destruct (threat_scan self ms scan_start) as [s|]; [|reflexivity].
  cbn [option_map bind fst snd]. rewrite exact_apply_avoidance.
  destruct (apply_avoidance self (avoidance_vector s)) as [self1|] eqn:Ha;
    [|reflexivity].
  cbn [option_map bind].
  destruct (apply_avoidance_position _ _ _ Ha) as [<- <-].
  rewrite exact_apply_centering.
  destruct (apply_centering self1 (in_danger s)) as [self2|]; [|reflexivity].
  cbn [option_map bind]. rewrite exact_limit_speed.
  destruct (limit_speed self2) as [self3|]; [|reflexivity].
  cbn [option_map bind].
  destruct (finish_velocity self3) as [-> ->]. reflexivity.
Qed.





Section Rounding.

(** An arithmetic whose numbers have real values [val], with comparisons
    that decide the order of the values and a division, a multiplication
    and a norm that return their exact results up to the relative error
    [u]: the standard model of floating-point arithmetic, away from
    overflow and underflow.  For binary64 operations rounded to nearest
    [u] is [unit_roundoff]; twice that covers a norm that is accurate to
    one unit in the last place. *)
Variable A : Arithmetic.
Variable val : number A -> R.
Variable u : R.

Hypothesis u_small : 0 <= u < 1.
Hypothesis val_0 : val (n_0 A) = 0.
Hypothesis val_MAX_SPEED : val (n_MAX_SPEED A) = MAX_SPEED.
Hypothesis lt_val : forall a b, n_lt A a b = true <-> val a < val b.
Hypothesis eq_val : forall a b, n_eq A a b = true <-> val a = val b.
Hypothesis div_error : forall a b,
  val b <> 0 ->
  Rabs (val (n_div A a b) - val a / val b) <= u * Rabs (val a / val b).
Hypothesis mul_error : forall a b,
  Rabs (val (n_mul A a b) - val a * val b) <= u * Rabs (val a * val b).
Hypothesis hypot_error : forall a b,
  Rabs (val (n_hypot A a b) - hypot (val a) (val b)) <=
  u * hypot (val a) (val b).








End Rounding.








(** The same velocity is within the bound of the rounding model for the
    unit roundoff [2^-53] of binary64: the square of its exact length is at
    most the square of MAX_SPEED * (1 + u)^2 / (1 - u). *)
Lemma binary64_speed_within_rounding_bound :
  let u := QArith_base.Qmake 1 9007199254740992 in
  let bound :=
    QArith_base.Qmult (QArith_base.inject_Z 5)
      (QArith_base.Qdiv
         (QArith_base.Qmult (QArith_base.Qplus (QArith_base.inject_Z 1) u)
                            (QArith_base.Qplus (QArith_base.inject_Z 1) u))
         (QArith_base.Qminus (QArith_base.inject_Z 1) u)) in
  exists q : QArith_base.Q,
    (F64.norm_squared F64.rescaled = Some q) /\
    (QArith_base.Qle q (QArith_base.Qmult bound bound)).
Proof.
  eexists. split; [vm_compute; reflexivity|]. vm_compute. discriminate.
Qed.

(** * Further properties of the code *)

(** ** The tracker *)

Lemma track_loop_app (t : R) (s : Spaceship) (ms1 ms2 : list Meteor) :
  forall self,
    track_loop t s (ms1 ++ ms2) self =
    track_loop t s ms2 (track_loop t s ms1 self).
Proof.
  induction ms1 as [|m ms1 IH]; intros self; simpl; [reflexivity|].
  destruct (is_near_miss self s m); apply IH.
Qed.

(** X1.  [track_frame] only appends: the events already recorded stay, in
    place; at most one event per scanned meteor is added; every added event
    carries the elapsed time of this call and the craft's position and
    velocity; the start time and the two thresholds are left as they were. *)
Theorem track_frame_appends :
  forall (now : R) (self : GameTracker) (s : Spaceship) (ms : list Meteor),
  exists new : list NearMissEvent,
    near_misses (track_frame now self s ms) = near_misses self ++ new /\
    (List.length new <= List.length ms)%nat /\
    Forall (fun e => timestamp e = now - start_time self /\
                     ship_position e = (x s, y s) /\
                     ship_velocity e = (velocity_x s, velocity_y s)) new /\
    start_time (track_frame now self s ms) = start_time self /\
    danger_threshold (track_frame now self s ms) = danger_threshold self /\
    critical_threshold (track_frame now self s ms) = critical_threshold self.
Proof.
  intros now self s ms.
  exists (map (make_event (now - start_time self) s)
              (filter (is_near_miss self s) ms)).
  split; [apply track_loop_events|]. split.
  - rewrite length_map. apply filter_length_le.
  - split; [|apply track_loop_thresholds].
    apply Forall_forall. intros e He. apply in_map_iff in He.
    destruct He as (m & <- & _). simpl. auto.
Qed.

(** X2.  Scanning a list of meteors in one call is scanning a first part
    and then the rest, at the same clock reading. *)
Theorem track_frame_split :
  forall (now : R) (self : GameTracker) (s : Spaceship)
         (ms1 ms2 : list Meteor),
    track_frame now self s (ms1 ++ ms2) =
    track_frame now (track_frame now self s ms1) s ms2.
Proof.
  intros now self s ms1 ms2. unfold track_frame.
  destruct (track_loop_thresholds (now - start_time self) s ms1 self)
    as (Hst & _).
  rewrite Hst. apply track_loop_app.
Qed.

(** The events of a run: inside the near-miss band, and consistent with
    the positions they record. *)
Lemma tracked_events (self : GameTracker) :
  tracked self ->
  Forall (fun e =>
            35 < distance e < 50 /\
            distance e =
              hypot (fst (ship_position e) - fst (meteor_position e))
                    (snd (ship_position e) - snd (meteor_position e)))
         (near_misses self).
Proof.
  induction 1 as [t0 | now self s ms Ht IH]; [constructor|].
  destruct (tracked_thresholds self Ht) as [Hd _].
  unfold track_frame. rewrite track_loop_events.
  apply Forall_app. split; [exact IH|].
  apply Forall_forall. intros e He. apply in_map_iff in He.
  destruct He as (m & <- & Hm). apply filter_In in Hm as [_ Hm].
  apply is_near_miss_iff in Hm. rewrite Hd in Hm. simpl.
  unfold SPACESHIP_SIZE, METEOR_SIZE in Hm. split; [lra | reflexivity].
Qed.

(** X3.  Every event a run records has a distance strictly between 35 and
    50, and that distance is the distance between the craft position and
    the meteor position stored in the same event. *)
Theorem recorded_events_consistent :
  forall self : GameTracker,
    tracked self ->
    forall e, In e (near_misses self) ->
      35 < distance e < 50 /\
      distance e =
        hypot (fst (ship_position e) - fst (meteor_position e))
              (snd (ship_position e) - snd (meteor_position e)).
Proof.
  intros self Ht e He.
  pose proof (tracked_events self Ht) as H.
  rewrite Forall_forall in H. now apply H.
Qed.

(** The tracker of one frame with a meteor 40 away, and its event. *)
Lemma recorded_events_consistent_witness :
  let s := craft_at 400 300 in
  let m := meteor_at 440 300 in
  let self := track_frame 1 (GameTracker_init 0) s [m] in
  let e := make_event (1 - 0) s m in
  35 < distance e < 50 /\
  distance e =
    hypot (fst (ship_position e) - fst (meteor_position e))
          (snd (ship_position e) - snd (meteor_position e)).
Proof.
  intros s m self e.
  apply (recorded_events_consistent self).
  - unfold self. apply tracked_frame. apply tracked_init.
  - unfold self. rewrite fresh_tracker_single.
    assert (Hd : center_distance s m = 40)
      by (apply center_distance_east; simpl; lra).
    rewrite Hd. cmp 40 50; [|lra]. cmpg 40 35; [|lra]. simpl. now left.
Defined.

(** ** Whole runs *)

Lemma later_tracked (g g' : Game) :
  tracked (tracker g) -> later g g' -> tracked (tracker g').
Proof.
  intros Hg Hl. induction Hl as [|g1 g2 f _ IH _ Ht]; [exact Hg|].
  destruct (tick_scans f g1 g2 Ht) as (_ & _ & -> & _).
  now apply tracked_frame.
Qed.

Lemma main_loop_stopped (frames : list Frame) (g : Game) :
  running g = false -> main_loop frames g = Some g.
Proof. intros Hr. destruct frames; simpl; [|rewrite Hr]; reflexivity. Qed.

Lemma StronglySorted_app {A : Type} (le : A -> A -> Prop) (l1 l2 : list A) :
  StronglySorted le l1 -> StronglySorted le l2 ->
  (forall a b, In a l1 -> In b l2 -> le a b) ->
  StronglySorted le (l1 ++ l2).
Proof.
  induction l1 as [|a l1 IH]; simpl; intros H1 H2 H12; [exact H2|].
  inversion H1 as [|? ? Hs Hf]; subst. constructor.
  - apply IH; auto.
  - apply Forall_app. split; [exact Hf|].
    apply Forall_forall. intros b Hb. apply H12; auto.
Qed.

Lemma StronglySorted_constant (c : R) (l : list R) :
  Forall (fun v => v = c) l -> StronglySorted Rle l.
Proof.
  induction 1 as [|v l Hv Hl IH]; constructor; [exact IH|].
  eapply Forall_impl; [|exact Hl]. simpl. intros; lra.
Qed.

(** The loop invariant behind the chronological order: [T] is the latest
    clock reading seen so far. *)
Lemma main_loop_chronological (frames : list Frame) :
  forall (g : Game) (T : R),
    distinct_objects g ->
    start_time (tracker g) <= T ->
    StronglySorted Rle (T :: map clock frames) ->
    StronglySorted Rle (map timestamp (near_misses (tracker g))) ->
    Forall (fun e => 0 <= timestamp e <= T - start_time (tracker g))
           (near_misses (tracker g)) ->
    exists g',
      main_loop frames g = Some g' /\
      StronglySorted Rle (map timestamp (near_misses (tracker g'))) /\
      Forall (fun e => 0 <= timestamp e) (near_misses (tracker g')).
Proof.
  induction frames as [|f frames IH]; intros g T Hd Hst Hclk Hsorted Hle.
  - exists g. simpl. split; [reflexivity|]. split; [exact Hsorted|].
    eapply Forall_impl; [|exact Hle]. simpl. intros; lra.
  - simpl. destruct (running g) eqn:Hrun.
    + destruct (tick_result f g Hd) as (g1 & Ht & _ & _ & _ & Hd1).
      rewrite Ht. simpl bind.
      destruct (tick_scans f g g1 Ht) as (_ & _ & Htr & _).
      inversion Hclk as [|? ? Hclk' HT]; subst.
      simpl in HT. inversion HT as [|? ? HTf _]; subst.
      destruct (track_loop_thresholds (clock f - start_time (tracker g))
                  (spaceship g1) (meteors g1) (tracker g)) as (Hst1 & _).
      fold (track_frame (clock f) (tracker g) (spaceship g1) (meteors g1))
        in Hst1.
      rewrite <- Htr in Hst1.
      assert (Hev : near_misses (tracker g1) =
                    near_misses (tracker g) ++
                    map (make_event (clock f - start_time (tracker g))
                                    (spaceship g1))
                        (filter (is_near_miss (tracker g) (spaceship g1))
                                (meteors g1)))
        by (rewrite Htr; apply track_loop_events).
      apply (IH g1 (clock f)); auto.
      * rewrite Hst1. lra.
      * rewrite Hev, map_app. apply StronglySorted_app; [exact Hsorted| |].
        -- apply (StronglySorted_constant (clock f - start_time (tracker g))).
           rewrite map_map. simpl. apply Forall_forall.
           intros v Hv. apply in_map_iff in Hv. now destruct Hv as (m & <- & _).
        -- intros a b Ha Hb. apply in_map_iff in Ha.
           destruct Ha as (e & <- & He).
           rewrite Forall_forall in Hle. specialize (Hle e He).
           rewrite map_map in Hb. simpl in Hb. apply in_map_iff in Hb.
           destruct Hb as (m & <- & _). lra.
      * rewrite Hst1, Hev. apply Forall_app. split.
        -- eapply Forall_impl; [|exact Hle]. simpl. intros; lra.
        -- apply Forall_forall. intros e He. apply in_map_iff in He.
           destruct He as (m & <- & _). simpl. lra.
    + exists g. split; [reflexivity|]. split; [exact Hsorted|].
      eapply Forall_impl; [|exact Hle]. simpl. intros; lra.
Qed.

(** X4.  When the clock readings of a run never go back (the start time,
    then one reading per pass), the run does not fault and the events of
    its tracker are in chronological order: their timestamps are
    non-negative and non-decreasing along the list. *)
Theorem events_in_chronological_order :
  forall (t0 : R) (frames : list Frame),
    StronglySorted Rle (t0 :: map clock frames) ->
    exists g' : Game,
      main_loop frames (main_start t0) = Some g' /\
      StronglySorted Rle (map timestamp (near_misses (tracker g'))) /\
      Forall (fun e => 0 <= timestamp e) (near_misses (tracker g')).
Proof.
  intros t0 frames Hclk.
  apply (main_loop_chronological frames (main_start t0) t0).
  - apply main_start_distinct.
  - simpl. lra.
  - exact Hclk.
  - simpl. constructor.
  - simpl. constructor.
Qed.

(** X5.  A list of passes run in one go is the first passes run, then the
    remaining ones from the state reached (a fault in the first part is a
    fault of the whole). *)
Theorem main_loop_app :
  forall (frames1 frames2 : list Frame) (g : Game),
    main_loop (frames1 ++ frames2) g =
    (g1 <- main_loop frames1 g ;; main_loop frames2 g1).
Proof.
  induction frames1 as [|f frames1 IH]; intros frames2 g; simpl.
  - reflexivity.
  - destruct (running g) eqn:Hrun.
    + destruct (tick f g) as [g1|]; simpl; [apply IH | reflexivity].
    + simpl. now rewrite main_loop_stopped.
Qed.

(** X6.  From a state with distinct live meteors the loop does not fault,
    and the score counts the passes: it grows by one per pass run, so by at
    most the number of frames, and by exactly that number when the run is
    still going at the end; a run that is already over is left as it is. *)
Theorem score_counts_passes :
  forall (frames : list Frame) (g : Game),
    distinct_objects g ->
    exists g' : Game,
      main_loop frames g = Some g' /\
      (score g <= score g' <= score g + List.length frames)%nat /\
      (running g' = true ->
       score g' = (score g + List.length frames)%nat) /\
      (running g = false -> g' = g).
Proof.
  induction frames as [|f frames IH]; intros g Hd; simpl.
  - exists g. repeat split; auto; lia.
  - destruct (running g) eqn:Hrun.
    + destruct (tick_result f g Hd) as (g1 & Ht & _ & _ & _ & Hd1).
      rewrite Ht. simpl bind.
      destruct (tick_scans f g g1 Ht) as (_ & _ & _ & _ & Hsc).
      destruct (IH g1 Hd1) as (g' & Hl & Hle & Heq & _).
      exists g'. split; [exact Hl|]. split; [lia|]. split.
      * intros Hr. rewrite (Heq Hr). lia.
      * discriminate.
    + exists g. split; [reflexivity|]. split; [lia|]. split; [|auto].
      intros Hr. rewrite Hr in Hrun. discriminate.
Qed.

Lemma score_counts_passes_witness :
  exists g' : Game,
    main_loop [first_frame; quit_frame] (main_start 0) = Some g' /\
    (score (main_start 0) <= score g' <= score (main_start 0) + 2)%nat /\
    (running g' = true -> score g' = (score (main_start 0) + 2)%nat) /\
    (running (main_start 0) = false -> g' = main_start 0).
Proof.
  apply (score_counts_passes [first_frame; quit_frame] (main_start 0)).
  apply main_start_distinct.
Defined.

(** X7.  A quit request ends the run at the end of the pass in which it is
    seen: that pass still runs in full (the tracker scans, the score
    grows), [running] is cleared, and no later frame is processed. *)
Theorem quit_ends_run :
  forall (f : Frame) (rest : list Frame) (g : Game),
    distinct_objects g -> running g = true -> quit f = true ->
    exists g' : Game,
      tick f g = Some g' /\
      main_loop (f :: rest) g = Some g' /\
      running g' = false /\
      score g' = S (score g) /\
      tracker g' =
        track_frame (clock f) (tracker g) (spaceship g') (meteors g').
Proof.
  intros f rest g Hd Hrun Hq.
  destruct (tick_result f g Hd) as (g1 & Ht & _).
  destruct (tick_scans f g g1 Ht) as (_ & _ & Htr & Hr & Hsc).
  rewrite Hq in Hr.
  exists g1. split; [exact Ht|]. split.
  - simpl. rewrite Hrun, Ht. simpl. now apply main_loop_stopped.
  - auto.
Qed.

Lemma quit_ends_run_witness :
  exists g' : Game,
    tick quit_frame (main_start 0) = Some g' /\
    main_loop [quit_frame; first_frame] (main_start 0) = Some g' /\
    running g' = false /\
    score g' = S (score (main_start 0)) /\
    tracker g' =
      track_frame (clock quit_frame) (tracker (main_start 0))
        (spaceship g') (meteors g').
Proof.
  apply (quit_ends_run quit_frame [first_frame] (main_start 0)).
  - apply main_start_distinct.
  - reflexivity.
  - reflexivity.
Defined.

(** What the autopilot update leaves: a craft in the field, within the
    speed cap. *)
Lemma avoid_meteors_post (self self' : Spaceship) (ms : list Meteor) :
  avoid_meteors self ms = Some self' ->
  in_field self' /\
  hypot (velocity_x self') (velocity_y self') <= MAX_SPEED.
Proof.
  intros Ha.
  destruct (steer_total self ms) as (pre & Hpre).
  rewrite (avoid_meteors_unfold self pre ms Hpre) in Ha.
  set (speed := hypot (velocity_x pre) (velocity_y pre)) in *.
  destruct (limit_speed_total pre) as [[Hle Hl] | [Hgt Hl]];
    rewrite Hl in Ha; simpl in Ha; injection Ha as <-.
  - split.
    + split; simpl; apply py_clamp_bounds;
        unfold SPACESHIP_SIZE, WIDTH, HEIGHT; lra.
    + destruct (finish_velocity pre) as [-> ->]. exact Hle.
  - split.
    + split; simpl; apply py_clamp_bounds;
        unfold SPACESHIP_SIZE, WIDTH, HEIGHT; lra.
    + match goal with |- context [update_angle ?s3] =>
        destruct (finish_velocity s3) as [-> ->] end.
      simpl. fold speed.
      cbv zeta in Hgt. fold speed in Hgt.
      assert (Hpos : 0 < speed)
        by (pose proof Hgt as Hgt'; unfold MAX_SPEED in Hgt'; lra).
      replace (velocity_x pre / speed * MAX_SPEED)
        with (MAX_SPEED / speed * velocity_x pre) by (field; lra).
      replace (velocity_y pre / speed * MAX_SPEED)
        with (MAX_SPEED / speed * velocity_y pre) by (field; lra).
      rewrite hypot_scale.
      * fold speed. right. field. lra.
      * left. apply Rdiv_lt_0_compat; [unfold MAX_SPEED; lra | exact Hpos].
Qed.

Lemma distinct_count (g : Game) :
  distinct_objects g -> (List.length (meteors g) <= next_ident g)%nat.
Proof.
  intros [Hnd Hlt].
  rewrite <- (length_map ident), <- (length_seq (next_ident g) 0).
  apply NoDup_incl_length; [exact Hnd|].
  intros i Hi. apply in_map_iff in Hi. destruct Hi as (m & <- & Hm).
  rewrite Forall_forall in Hlt. specialize (Hlt m Hm).
  apply in_seq. lia.
Qed.

(** X8.  Invariants of a run.  At the head of every pass the craft is
    inside the field shrunk by its size; every live meteor is inside the
    field grown by the meteor size; the live meteors are no more than the
    meteors created so far, which are no more than the passes run (the
    score); and the tracker is one that only [__init__] and [track_frame]
    have touched. *)
Theorem run_invariants :
  forall g : Game,
    reachable g ->
    in_field (spaceship g) /\
    Forall (fun m => off_screen m = false) (meteors g) /\
    (List.length (meteors g) <= next_ident g <= score g)%nat /\
    tracked (tracker g).
Proof.
  intros g (now & Hl).
  assert (Hd : distinct_objects g)
    by (apply reachable_distinct; now exists now).
  assert (Hmain : in_field (spaceship g) /\
    Forall (fun m => off_screen m = false) (meteors g) /\
    (next_ident g <= score g)%nat /\ tracked (tracker g)).
  { clear Hd. induction Hl as [|g1 g2 f Hl IH Hrun Ht].
    - simpl. split; [|split; [|split]].
      + unfold in_field, SPACESHIP_SIZE, WIDTH, HEIGHT. simpl. lra.
      + constructor.
      + lia.
      + constructor.
    - destruct IH as (_ & _ & Hn & Htr).
      assert (Hd1 : distinct_objects g1).
      { now apply (later_distinct (main_start now) g1
                     (main_start_distinct now)). }
      destruct (tick_result f g1 Hd1) as (g2' & Ht' & _ & Hm & Hnext & _).
      rewrite Ht in Ht'. injection Ht' as <-.
      destruct (tick_scans f g1 g2 Ht) as (_ & Ha & Htr2 & _ & Hsc).
      destruct (avoid_meteors_post _ _ _ Ha) as [Hf _].
      split; [exact Hf|]. split; [|split].
      + rewrite Hm. apply Forall_forall. intros m Hin.
        apply filter_In in Hin as [_ Hin]. now apply negb_true_iff.
      + rewrite Hnext, Hsc. unfold spawn.
        destruct (spawn_draw f <? 5 / 100); simpl; lia.
      + rewrite Htr2. now apply tracked_frame. }
  destruct Hmain as (H1 & H3 & H4 & H5).
  pose proof (distinct_count g Hd). repeat split; auto; apply H1.
Qed.

(** X9.  [main] does not fault, whatever the frames: no
    [ZeroDivisionError] in the autopilot and no [ValueError] from
    [list.remove].  While the loop is still running nothing is written.
    Once [running] has been cleared, one report is written, to
    [game_analytics.json], built from the tracker of the last state at the
    final clock reading: its [total_runtime] is that reading minus the
    start time, its count is the number of its entries, and every entry is
    tagged WARNING with a distance strictly between 35 and 50. *)
Theorem main_writes_one_report :
  forall (t_start : R) (frames : list Frame) (t_end : R) (files : FileStore),
  exists g : Game,
    main_loop frames (main_start t_start) = Some g /\
    later (main_start t_start) g /\
    (running g = true ->
     main t_start frames t_end files = Some (still_running g)) /\
    (running g = false ->
     main t_start frames t_end files =
       Some (game_over g
               ((default_filename, build_analytics t_end (tracker g))
                  :: files)) /\
     total_runtime (build_analytics t_end (tracker g)) = t_end - t_start /\
     total_near_misses (build_analytics t_end (tracker g)) =
       List.length (report_near_misses (build_analytics t_end (tracker g))) /\
     Forall (fun r => severity r = "WARNING"%string /\ 35 < r_distance r < 50)
            (report_near_misses (build_analytics t_end (tracker g)))).
Proof.
  intros t_start frames t_end files.
  destruct (main_loop_total frames (main_start t_start)
              (main_start_distinct t_start)) as (g & Hg).
  pose proof (main_loop_later frames _ _ Hg) as Hl.
  assert (Htr : tracked (tracker g)).
  { apply (later_tracked (main_start t_start) g); [|exact Hl].
    simpl. constructor. }
  exists g. split; [exact Hg|]. split; [exact Hl|]. split.
  - intros Hr. unfold main. rewrite Hg. simpl. now rewrite Hr.
  - intros Hr. split; [unfold main; rewrite Hg; simpl; now rewrite Hr|].
    split; [|split].
    + simpl. f_equal.
      clear Hg Htr Hr. induction Hl as [|g1 g2 f _ IH _ Ht]; [reflexivity|].
      destruct (tick_scans f g1 g2 Ht) as (_ & _ & -> & _).
      destruct (track_loop_thresholds (clock f - start_time (tracker g1))
                  (spaceship g2) (meteors g2) (tracker g1)) as (Hst & _).
      unfold track_frame. now rewrite Hst.
    + simpl. now rewrite length_map.
    + simpl. apply Forall_forall. intros r Hin. apply in_map_iff in Hin.
      destruct Hin as (e & <- & He).
      pose proof (tracked_events _ Htr) as Hev.
      rewrite Forall_forall in Hev. destruct (Hev e He) as [Hband _].
      split; [|exact Hband].
      apply severity_cases. destruct (tracked_thresholds _ Htr) as [_ ->]. lra.
Qed.

(** A run that a quit request ends in its first pass writes its report;
    with no frame at all the loop has not ended and nothing is written. *)
Lemma main_quit_then_report :
  (exists g,
     main 0 [quit_frame; first_frame] 3 [] =
       Some (game_over g
               [(default_filename, build_analytics 3 (tracker g))]) /\
     score g = 1%nat) /\
  main 0 [] 3 [] = Some (still_running (main_start 0)).
Proof.
  split; [|reflexivity].
  destruct (tick_result quit_frame (main_start 0) (main_start_distinct 0))
    as (g1 & Ht & _).
  destruct (tick_scans quit_frame (main_start 0) g1 Ht)
    as (_ & _ & _ & Hr & Hsc).
  simpl in Hr, Hsc. exists g1. split; [|exact Hsc].
  assert (Hloop : main_loop [quit_frame; first_frame] (main_start 0)
                  = Some g1).
  { change (main_loop [quit_frame; first_frame] (main_start 0))
      with (g' <- tick quit_frame (main_start 0) ;;
            main_loop [first_frame] g').
    rewrite Ht. apply (main_loop_stopped _ _ Hr). }
  unfold main. rewrite Hloop. simpl bind. rewrite Hr. reflexivity.
Qed.

(** ** The autopilot *)

Lemma threat_scan_filter (self : Spaceship) (ms : list Meteor) :
  forall acc,
    threat_scan self (filter (in_range self) ms) acc = threat_scan self ms acc.
Proof.
  induction ms as [|m ms IH]; intros acc; simpl; [reflexivity|].
  fold (in_range self m). destruct (in_range self m) eqn:Hr; [|apply IH].
  simpl. fold (in_range self m). rewrite Hr.
  apply in_range_iff in Hr. rewrite !pdiv_nonzero by lra. simpl. apply IH.
Qed.

(** X10.  Meteors at a distance of DETECTION_RADIUS or more, and meteors
    exactly at the craft's position, have no influence on the update: the
    result is the one computed from the meteors in range alone, and with no
    meteor in range it is the one computed from an empty sky. *)
Theorem out_of_range_meteors_ignored :
  forall (self : Spaceship) (ms : list Meteor),
    avoid_meteors self ms = avoid_meteors self (filter (in_range self) ms) /\
    (Forall (fun m => center_distance self m <= 0 \/
                      DETECTION_RADIUS <= center_distance self m) ms ->
     avoid_meteors self ms = avoid_meteors self []).
Proof.
  intros self ms.
  assert (H : avoid_meteors self ms =
              avoid_meteors self (filter (in_range self) ms))
    by (unfold avoid_meteors, steer; now rewrite threat_scan_filter).
  split; [exact H|]. intros Hout. rewrite H.
  replace (filter (in_range self) ms) with (@nil Meteor); [reflexivity|].
  symmetry. clear H.
  induction Hout as [|m ms Hm _ IH]; simpl; [reflexivity|].
  destruct (in_range self m) eqn:Hr; [|exact IH].
  apply in_range_iff in Hr. lra.
Qed.




(** X12.  A meteor exactly at the craft's position (distance zero) is
    skipped by the threat scan, so the autopilot does not react to it; the
    tracker records no near miss for it; the collision loop ends the run. *)
Theorem meteor_on_the_craft :
  forall (s : Spaceship) (m : Meteor) (ms : list Meteor)
         (self : GameTracker) (running0 : bool),
    center_distance s m = 0 ->
    avoid_meteors s (m :: ms) = avoid_meteors s ms /\
    is_near_miss self s m = false /\
    collision_detection s (m :: ms) running0 = false.
Proof.
  intros s m ms self running0 Hd. split; [|split].
  - unfold avoid_meteors, steer. simpl threat_scan. rewrite Hd.
    cmpg 0 0; [lra|]. now rewrite andb_false_r.
  - unfold is_near_miss. rewrite Hd.
    cmpg 0 (SPACESHIP_SIZE + METEOR_SIZE);
      [unfold SPACESHIP_SIZE, METEOR_SIZE in *; lra|].
    now rewrite andb_false_r.
  - simpl. rewrite Hd.
    cmp 0 (SPACESHIP_SIZE + METEOR_SIZE);
      [|unfold SPACESHIP_SIZE, METEOR_SIZE in *; lra].
    apply collision_detection_false.
Qed.

Lemma meteor_on_the_craft_witness :
  avoid_meteors (craft_at 400 300) [meteor_at 400 300] =
    avoid_meteors (craft_at 400 300) [] /\
  is_near_miss (GameTracker_init 0) (craft_at 400 300) (meteor_at 400 300)
    = false /\
  collision_detection (craft_at 400 300) [meteor_at 400 300] true = false.
Proof.
  apply (meteor_on_the_craft (craft_at 400 300) (meteor_at 400 300) []
           (GameTracker_init 0) true).
  unfold center_distance. simpl. apply hypot_zero. split; lra.
Defined.


(** Steering leaves position and heading alone and changes the velocity by
    a vector no longer than AVOIDANCE_STRENGTH. *)
Lemma steer_delta (self : Spaceship) (ms : list Meteor) :
  exists pre,
    steer self ms = Some pre /\
    x pre = x self /\ y pre = y self /\ angle pre = angle self /\
    hypot (velocity_x pre - velocity_x self)
          (velocity_y pre - velocity_y self) <= AVOIDANCE_STRENGTH.
Proof.
  assert (H00 : hypot 0 0 = 0) by now apply hypot_zero.
  destruct (scan_start_result self ms) as (s & Hs & _ & Hzero).
  unfold steer. rewrite Hs. simpl bind.
  destruct (in_danger s) eqn:Hd.
  - destruct (apply_avoidance_total self (avoidance_vector s))
      as [[Hl Ha] | [Hl Ha]]; rewrite Ha; simpl bind.
    + exists self. split; [reflexivity|]. repeat split.
      replace (velocity_x self - velocity_x self) with 0 by ring.
      replace (velocity_y self - velocity_y self) with 0 by ring.
      rewrite H00. unfold AVOIDANCE_STRENGTH. lra.
    + eexists. split; [reflexivity|]. simpl. repeat split.
      set (ax := fst (avoidance_vector s)) in *.
      set (ay := snd (avoidance_vector s)) in *.
      replace (velocity_x self + ax / hypot ax ay * AVOIDANCE_STRENGTH
               - velocity_x self)
        with (AVOIDANCE_STRENGTH * (ax / hypot ax ay)) by ring.
      replace (velocity_y self + ay / hypot ax ay * AVOIDANCE_STRENGTH
               - velocity_y self)
        with (AVOIDANCE_STRENGTH * (ay / hypot ax ay)) by ring.
      rewrite hypot_scale by (unfold AVOIDANCE_STRENGTH; lra).
      rewrite hypot_unit by exact Hl. lra.
  - specialize (Hzero eq_refl).
    assert (Ha : apply_avoidance self (avoidance_vector s) = Some self).
    { destruct (apply_avoidance_total self (avoidance_vector s))
        as [[_ Ha] | [Hl _]]; [exact Ha|].
      exfalso. apply Hl. rewrite Hzero. simpl. exact H00. }
    rewrite Ha. simpl bind.
    destruct (apply_centering_total self) as [_ [[Hn Hc] | [Hn Hc]]];
      rewrite Hc; eexists; (split; [reflexivity|]); simpl; repeat split.
    + apply hypot_zero in Hn as [-> ->].
      replace (velocity_x self + 0 * CENTERING_STRENGTH - velocity_x self)
        with 0 by ring.
      replace (velocity_y self + 0 * CENTERING_STRENGTH - velocity_y self)
        with 0 by ring.
      rewrite H00. unfold AVOIDANCE_STRENGTH. lra.
    + set (dx := WIDTH / 2 - x self) in *.
      set (dy := HEIGHT / 2 - y self) in *.
      replace (velocity_x self + dx / hypot dx dy * CENTERING_STRENGTH
               - velocity_x self)
        with (CENTERING_STRENGTH * (dx / hypot dx dy)) by ring.
      replace (velocity_y self + dy / hypot dx dy * CENTERING_STRENGTH
               - velocity_y self)
        with (CENTERING_STRENGTH * (dy / hypot dx dy)) by ring.
      rewrite hypot_scale by (unfold CENTERING_STRENGTH; lra).
      rewrite hypot_unit by exact Hn.
      unfold CENTERING_STRENGTH, AVOIDANCE_STRENGTH. lra.
Qed.

(** The speed limit keeps position and heading and never raises the
    speed. *)
Lemma limit_speed_post (pre : Spaceship) :
  exists s3,
    limit_speed pre = Some s3 /\
    x s3 = x pre /\ y s3 = y pre /\ angle s3 = angle pre /\
    hypot (velocity_x s3) (velocity_y s3)
      <= hypot (velocity_x pre) (velocity_y pre).
Proof.
  set (speed := hypot (velocity_x pre) (velocity_y pre)).
  destruct (limit_speed_total pre) as [[Hle Hl] | [Hgt Hl]];
    rewrite Hl; eexists; (split; [reflexivity|]); simpl; repeat split.
  - fold speed. lra.
  - cbv zeta in Hgt. fold speed in Hgt. fold speed.
    assert (Hpos : 0 < speed)
      by (pose proof Hgt as Hgt'; unfold MAX_SPEED in Hgt'; lra).
    replace (velocity_x pre / speed * MAX_SPEED)
      with (MAX_SPEED / speed * velocity_x pre) by (field; lra).
    replace (velocity_y pre / speed * MAX_SPEED)
      with (MAX_SPEED / speed * velocity_y pre) by (field; lra).
    rewrite hypot_scale.
    + fold speed. replace (MAX_SPEED / speed * speed) with MAX_SPEED
        by (field; lra). lra.
    + left. apply Rdiv_lt_0_compat; [unfold MAX_SPEED; lra | exact Hpos].
Qed.

(** The update, stage by stage. *)
Lemma avoid_meteors_stages (self : Spaceship) (ms : list Meteor) :
  exists pre s3,
    steer self ms = Some pre /\
    limit_speed pre = Some s3 /\
    avoid_meteors self ms = Some (keep_in_bounds (integrate (update_angle s3)))
    /\
    x s3 = x self /\ y s3 = y self /\ angle s3 = angle self /\
    hypot (velocity_x pre - velocity_x self)
          (velocity_y pre - velocity_y self) <= AVOIDANCE_STRENGTH /\
    hypot (velocity_x s3) (velocity_y s3)
      <= hypot (velocity_x pre) (velocity_y pre).
Proof.
  destruct (steer_delta self ms) as (pre & Hpre & Hx & Hy & Han & Hdv).
  destruct (limit_speed_post pre) as (s3 & Hl & Hx3 & Hy3 & Han3 & Hsp).
  exists pre, s3. split; [exact Hpre|]. split; [exact Hl|]. split.
  - rewrite (avoid_meteors_unfold self pre ms Hpre), Hl. reflexivity.
  - repeat split; try congruence; assumption.
Qed.


Lemma update_angle_fields (s : Spaceship) :
  x (update_angle s) = x s /\ y (update_angle s) = y s /\
  velocity_x (update_angle s) = velocity_x s /\
  velocity_y (update_angle s) = velocity_y s.
Proof.
  unfold update_angle.
  destruct ((velocity_x s !=? 0) || (velocity_y s !=? 0)); simpl; auto.
Qed.

Lemma py_clamp_cases (lo hi v : R) :
  lo <= hi ->
  (v < lo -> py_max lo (py_min hi v) = lo) /\
  (hi < v -> py_max lo (py_min hi v) = hi) /\
  (lo <= v <= hi -> py_max lo (py_min hi v) = v).
Proof.
  intros Hlh. unfold py_max, py_min.
  cmp v hi.
  - cmpg v lo; repeat split; intros; lra.
  - cmpg hi lo; repeat split; intros; lra.
Qed.

(** Where the update puts the craft: the old position plus the new
    velocity, clamped. *)
Lemma avoid_meteors_position (self : Spaceship) (ms : list Meteor) :
  exists self',
    avoid_meteors self ms = Some self' /\
    x self' =
      py_max SPACESHIP_SIZE
        (py_min (WIDTH - SPACESHIP_SIZE) (x self + velocity_x self')) /\
    y self' =
      py_max SPACESHIP_SIZE
        (py_min (HEIGHT - SPACESHIP_SIZE) (y self + velocity_y self')).
Proof.
  destruct (avoid_meteors_stages self ms)
    as (pre & s3 & _ & _ & Ha & Hx & Hy & _).
  eexists. split; [exact Ha|].
  destruct (finish_velocity s3) as [-> ->].
  destruct (update_angle_fields s3) as (Hux & Huy & Huvx & Huvy).
  simpl. rewrite Hux, Huy, Huvx, Huvy, Hx, Hy. auto.
Qed.

(** X14.  At the walls.  The update moves the craft by its new velocity;
    when that would carry a coordinate past the margin (SPACESHIP_SIZE from
    an edge of the field) the coordinate is set exactly on the margin, and
    otherwise it is not altered. *)
Theorem craft_stops_at_the_margin :
  forall (self : Spaceship) (ms : list Meteor),
  exists self' : Spaceship,
    avoid_meteors self ms = Some self' /\
    let tx := x self + velocity_x self' in
    let ty := y self + velocity_y self' in
    (tx < SPACESHIP_SIZE -> x self' = SPACESHIP_SIZE) /\
    (WIDTH - SPACESHIP_SIZE < tx -> x self' = WIDTH - SPACESHIP_SIZE) /\
    (SPACESHIP_SIZE <= tx <= WIDTH - SPACESHIP_SIZE -> x self' = tx) /\
    (ty < SPACESHIP_SIZE -> y self' = SPACESHIP_SIZE) /\
    (HEIGHT - SPACESHIP_SIZE < ty -> y self' = HEIGHT - SPACESHIP_SIZE) /\
    (SPACESHIP_SIZE <= ty <= HEIGHT - SPACESHIP_SIZE -> y self' = ty).
Proof.
  intros self ms.
  destruct (avoid_meteors_position self ms) as (self' & Ha & Hx & Hy).
  exists self'. split; [exact Ha|]. cbv zeta. rewrite Hx, Hy.
  assert (Hw : SPACESHIP_SIZE <= WIDTH - SPACESHIP_SIZE)
    by (unfold SPACESHIP_SIZE, WIDTH; lra).
  assert (Hh : SPACESHIP_SIZE <= HEIGHT - SPACESHIP_SIZE)
    by (unfold SPACESHIP_SIZE, HEIGHT; lra).
  destruct (py_clamp_cases _ _ (x self + velocity_x self') Hw)
    as (X1 & X2 & X3).
  destruct (py_clamp_cases _ _ (y self + velocity_y self') Hh)
    as (Y1 & Y2 & Y3).
  repeat split; assumption.
Qed.

Lemma py_clamp_step (lo hi p v : R) :
  lo <= p <= hi -> Rabs (py_max lo (py_min hi (p + v)) - p) <= Rabs v.
Proof.
  intros Hp.
  assert (Hlh : lo <= hi) by lra.
  destruct (py_clamp_cases lo hi (p + v) Hlh) as (C1 & C2 & C3).
  destruct (Rlt_or_le (p + v) lo) as [H1|H1].
  - rewrite (C1 H1). unfold Rabs.
    destruct (Rcase_abs (lo - p)), (Rcase_abs v); lra.
  - destruct (Rlt_or_le hi (p + v)) as [H2|H2].
    + rewrite (C2 H2). unfold Rabs.
      destruct (Rcase_abs (hi - p)), (Rcase_abs v); lra.
    + rewrite (C3 (conj H1 H2)).
      replace (p + v - p) with v by ring. lra.
Qed.

Lemma atan_nonneg_sign (t : R) :
  (0 < t -> 0 < atan t) /\ (t <= 0 -> atan t <= 0).
Proof.
  split; intros Ht.
  - rewrite <- atan_0. now apply atan_increasing.
  - destruct Ht as [Ht | ->]; [|rewrite atan_0; lra].
    rewrite <- atan_0. left. now apply atan_increasing.
Qed.

Lemma atan2_range (b a : R) : - PI <= atan2 b a <= PI.
Proof.
  pose proof PI_RGT_0 as Hpi. unfold atan2.
  cmp 0 a.
  - pose proof (atan_bound (b / a)). lra.
  - cmp a 0.
    + pose proof (atan_bound (b / a)) as Hb.
      cmp b 0.
      * assert (Hq : 0 < b / a).
        { replace (b / a) with ((- b) / (- a)) by (field; lra).
          apply Rdiv_lt_0_compat; lra. }
        pose proof (proj1 (atan_nonneg_sign (b / a)) Hq). lra.
      * assert (Hq : b / a <= 0).
        { replace (b / a) with (- (b / (- a))) by (field; lra).
          assert (0 <= b / (- a)); [|lra].
          apply Rmult_le_pos; [lra|]. left. apply Rinv_0_lt_compat. lra. }
        pose proof (proj2 (atan_nonneg_sign (b / a)) Hq). lra.
    + cmp 0 b; [lra|]. cmp b 0; lra.
Qed.

Lemma degrees_range (r : R) : - PI <= r <= PI -> -180 <= degrees r <= 180.
Proof.
  intros Hr. pose proof PI_RGT_0 as Hpi. unfold degrees.
  assert (Hk : 0 < 180 / PI) by (apply Rdiv_lt_0_compat; lra).
  replace (r * 180 / PI) with (r * (180 / PI)) by (field; lra).
  assert (HPk : PI * (180 / PI) = 180) by (field; lra).
  set (k := 180 / PI) in *.
  assert (H1 : 0 <= (PI - r) * k) by (apply Rmult_le_pos; lra).
  assert (H2 : 0 <= (r + PI) * k) by (apply Rmult_le_pos; lra).
  lra.
Qed.

(** X16.  The heading after an update.  When the new velocity is zero the
    heading is kept; otherwise it is a value from -180 to 180 which, except
    for a craft moving exactly along decreasing x (where the sign of the
    zero [-vy] decides between 180 and -180), is [atan2(-vy, vx)] of the new
    velocity in degrees: 0 when the craft moves along increasing x, 90 when
    it moves toward the top of the screen (decreasing y) and -90 when it
    moves toward the bottom. *)
Theorem heading_follows_velocity :
  forall (self : Spaceship) (ms : list Meteor),
  exists self' : Spaceship,
    avoid_meteors self ms = Some self' /\
    let vx := velocity_x self' in
    let vy := velocity_y self' in
    (vx = 0 -> vy = 0 -> angle self' = angle self) /\
    (vx <> 0 \/ vy <> 0 -> -180 <= angle self' <= 180) /\
    (vy <> 0 \/ 0 < vx -> angle self' = degrees (atan2 (- vy) vx)) /\
    (0 < vx -> vy = 0 -> angle self' = 0) /\
    (vx = 0 -> vy < 0 -> angle self' = 90) /\
    (vx = 0 -> 0 < vy -> angle self' = -90).
Proof.
  intros self ms. pose proof PI_RGT_0 as Hpi.
  destruct (avoid_meteors_stages self ms)
    as (pre & s3 & _ & _ & Ha & _ & _ & Han & _).
  eexists. split; [exact Ha|].
  destruct (finish_velocity s3) as [-> ->]. cbv zeta.
  assert (Hang : angle (keep_in_bounds (integrate (update_angle s3))) =
                 angle (update_angle s3)) by reflexivity.
  rewrite Hang. clear Hang.
  set (vx := velocity_x s3). set (vy := velocity_y s3).
  assert (Hmoving : vx <> 0 \/ vy <> 0 ->
            angle (update_angle s3) = degrees (atan2 (- vy) vx)).
  { intros Hv. unfold update_angle. fold vx vy.
    destruct ((vx !=? 0) || (vy !=? 0)) eqn:Hc; [reflexivity|].
    apply orb_false_iff in Hc as [Hc1 Hc2].
    apply Rneqb_false in Hc1. apply Rneqb_false in Hc2. tauto. }
  split; [|split; [|split; [|split; [|split]]]].
  - intros Hx Hy. unfold update_angle. fold vx vy.
    assert (Hc : (vx !=? 0) || (vy !=? 0) = false).
    { apply orb_false_iff. split; now apply Rneqb_false. }
    rewrite Hc. exact Han.
  - intros Hv. rewrite (Hmoving Hv).
    apply degrees_range, atan2_range.
  - intros Hv. apply Hmoving. destruct Hv; [right; assumption | left; lra].
  - intros Hx Hy. rewrite Hmoving by (left; lra).
    rewrite Hy. unfold atan2. cmp 0 vx; [|lra].
    replace (- 0 / vx) with 0 by (field; lra).
    rewrite atan_0. unfold degrees. field. lra.
  - intros Hx Hy. rewrite Hmoving by (right; lra).
    rewrite Hx. unfold atan2. cmp 0 0; [lra|]. cmp 0 (- vy); [|lra].
    unfold degrees. field. lra.
  - intros Hx Hy. rewrite Hmoving by (right; lra).
    rewrite Hx. unfold atan2. cmp 0 0; [lra|]. cmp 0 (- vy); [lra|].
    cmp (- vy) 0; [|lra]. unfold degrees. field. lra.
Qed.

(** ** Meteors *)

Lemma hypot_polar (a s : R) : 0 <= s -> hypot (cos a * s) (sin a * s) = s.
Proof.
  intros Hs. unfold hypot. apply sqrt_lem_1; [apply sum_squares_nonneg | exact Hs |].
  pose proof (sin2_cos2 a) as H. unfold Rsqr in H.
  transitivity (s * s * (sin a * sin a + cos a * cos a)); [|ring].
  rewrite H. ring.
Qed.

Lemma polar_components (a s : R) :
  0 <= s -> - s <= cos a * s <= s /\ - s <= sin a * s <= s.
Proof.
  intros Hs. pose proof (COS_bound a). pose proof (SIN_bound a).
  split; split; nra.
Qed.

Lemma Meteor_init_facts :
  forall (i : nat) (d : MeteorDraws),
    possible_draws d ->
    let m := Meteor_init i d in
    ident m = i /\
    (m_x m = 0 \/ m_x m = WIDTH \/ m_y m = 0 \/ m_y m = HEIGHT) /\
    0 <= m_x m <= WIDTH /\ 0 <= m_y m <= HEIGHT /\
    hypot (m_velocity_x m) (m_velocity_y m) = d_speed d /\
    off_screen m = false /\
    off_screen (update m) = false.
Proof.
  intros i d [Hc Hs] m.
  assert (Hsp : 0 <= d_speed d) by lra.
  destruct (polar_components (d_angle d) (d_speed d) Hsp) as [Hvx Hvy].
  assert (Hv : m_velocity_x m = cos (d_angle d) * d_speed d /\
               m_velocity_y m = sin (d_angle d) * d_speed d)
    by (unfold m, Meteor_init; destruct (d_side d); simpl; auto).
  destruct Hv as [Hmx Hmy].
  assert (Hpos : (m_x m = 0 \/ m_x m = WIDTH \/ m_y m = 0 \/ m_y m = HEIGHT)
                 /\ 0 <= m_x m <= WIDTH /\ 0 <= m_y m <= HEIGHT).
  { unfold m, Meteor_init. unfold WIDTH, HEIGHT in *.
    destruct (d_side d); simpl; repeat split; auto; lra. }
  destruct Hpos as (Hedge & Hx & Hy).
  split; [unfold m, Meteor_init; destruct (d_side d); reflexivity|].
  split; [exact Hedge|]. split; [exact Hx|]. split; [exact Hy|].
  split; [rewrite Hmx, Hmy; now apply hypot_polar|].
  split; apply not_true_iff_false; rewrite off_screen_iff; simpl;
    rewrite ?Hmx, ?Hmy; unfold WIDTH, HEIGHT, METEOR_SIZE in *; lra.
Qed.


(** X17.  A new meteor, for draws [random] can return: it is the object
    with the identity given, it sits on an edge of the field and inside it,
    its speed is the drawn speed, and neither its spawn position nor its
    position one step later is off screen. *)
Theorem new_meteor_on_the_edge :
  forall (i : nat) (d : MeteorDraws),
    possible_draws d ->
    let m := Meteor_init i d in
    ident m = i /\
    (m_x m = 0 \/ m_x m = WIDTH \/ m_y m = 0 \/ m_y m = HEIGHT) /\
    0 <= m_x m <= WIDTH /\ 0 <= m_y m <= HEIGHT /\
    hypot (m_velocity_x m) (m_velocity_y m) = d_speed d /\
    off_screen m = false /\
    off_screen (update m) = false.
Proof. exact Meteor_init_facts. Qed.

Lemma new_meteor_on_the_edge_witness :
  let m := Meteor_init 0 (meteor_draws first_frame) in
  ident m = 0%nat /\
  (m_x m = 0 \/ m_x m = WIDTH \/ m_y m = 0 \/ m_y m = HEIGHT) /\
  0 <= m_x m <= WIDTH /\ 0 <= m_y m <= HEIGHT /\
  hypot (m_velocity_x m) (m_velocity_y m) = d_speed (meteor_draws first_frame)
  /\
  off_screen m = false /\
  off_screen (update m) = false.
Proof.
  apply (new_meteor_on_the_edge 0 (meteor_draws first_frame)).
  unfold possible_draws, HEIGHT. simpl. lra.
Defined.

Lemma meteor_moves_in_a_straight_line_aux (n : nat) (m : Meteor) :
  ident (Nat.iter n update m) = ident m /\
  m_x (Nat.iter n update m) = m_x m + INR n * m_velocity_x m /\
  m_y (Nat.iter n update m) = m_y m + INR n * m_velocity_y m /\
  m_velocity_x (Nat.iter n update m) = m_velocity_x m /\
  m_velocity_y (Nat.iter n update m) = m_velocity_y m.
Proof.
  induction n as [|n IH].
  - simpl. repeat split; ring.
  - destruct IH as (Hi & Hx & Hy & Hvx & Hvy).
    rewrite S_INR. simpl Nat.iter. simpl.
    rewrite Hi, Hx, Hy, Hvx, Hvy. repeat split; ring.
Qed.

(** X18.  A meteor moves in a straight line at constant velocity: after
    [n] calls of [update] it is the same object with the same velocity, at
    its first position plus [n] times the velocity. *)
Theorem meteor_moves_in_a_straight_line :
  forall (n : nat) (m : Meteor),
    let m' := Nat.iter n update m in
    ident m' = ident m /\
    m_x m' = m_x m + INR n * m_velocity_x m /\
    m_y m' = m_y m + INR n * m_velocity_y m /\
    m_velocity_x m' = m_velocity_x m /\
    m_velocity_y m' = m_velocity_y m.
Proof. intros n m. apply meteor_moves_in_a_straight_line_aux. Qed.

Lemma nat_above (r : R) : exists n : nat, r < INR n.
Proof.
  destruct (archimed r) as [Hup _].
  destruct (Z_le_gt_dec 0 (up r)) as [Hz|Hz].
  - exists (Z.to_nat (up r)).
    rewrite INR_IZR_INZ, Z2Nat.id by exact Hz. lra.
  - exists 0%nat. simpl.
    assert (IZR (up r) < 0) by (apply IZR_lt; lia). lra.
Qed.

(** X19.  A meteor that moves at all is off screen after some number of
    updates: no moving meteor stays in the field for ever. *)
Theorem moving_meteor_leaves :
  forall m : Meteor,
    m_velocity_x m <> 0 \/ m_velocity_y m <> 0 ->
    exists n : nat, off_screen (Nat.iter n update m) = true.
Proof.
  intros m Hv.
  assert (Hgo : forall p v lo hi : R, v <> 0 ->
            exists n : nat, p + INR n * v < lo \/ hi < p + INR n * v).
  { intros p v lo hi Hv0.
    destruct (Rlt_or_le 0 v) as [Hpos|Hneg].
    - destruct (nat_above ((hi - p) / v)) as (n & Hn). exists n. right.
      apply (Rmult_lt_compat_r v) in Hn; [|exact Hpos].
      replace ((hi - p) / v * v) with (hi - p) in Hn by (field; lra). lra.
    - assert (Hneg' : 0 < - v) by lra.
      destruct (nat_above ((p - lo) / (- v))) as (n & Hn). exists n. left.
      apply (Rmult_lt_compat_r (- v)) in Hn; [|exact Hneg'].
      replace ((p - lo) / - v * - v) with (p - lo) in Hn by (field; lra).
      lra. }
  destruct Hv as [Hv|Hv].
  - destruct (Hgo (m_x m) (m_velocity_x m) (- METEOR_SIZE)
                (WIDTH + METEOR_SIZE) Hv) as (n & Hn).
    exists n. apply off_screen_iff.
    destruct (meteor_moves_in_a_straight_line_aux n m) as (_ & -> & _).
    tauto.
  - destruct (Hgo (m_y m) (m_velocity_y m) (- METEOR_SIZE)
                (HEIGHT + METEOR_SIZE) Hv) as (n & Hn).
    exists n. apply off_screen_iff.
    destruct (meteor_moves_in_a_straight_line_aux n m) as (_ & _ & -> & _).
    tauto.
Qed.

Lemma moving_meteor_leaves_witness :
  exists n : nat,
    off_screen
      (Nat.iter n update
         {| ident := 0; m_x := 824; m_y := 300;
            m_velocity_x := 2; m_velocity_y := 0 |}) = true.
Proof.
  apply (moving_meteor_leaves
           {| ident := 0; m_x := 824; m_y := 300;
              m_velocity_x := 2; m_velocity_y := 0 |}).
  left. simpl. lra.
Defined.

(** X20.  A pass that spawns a meteor (the draw of [random.random()] is
    below 0.05) with draws [random] can return never culls it in the same
    pass: the new object, moved one step, is among the live meteors the
    pass leaves, one new identity is used, and the live meteors grow by at
    most one. *)
Theorem spawned_meteor_survives_its_pass :
  forall (g : Game) (f : Frame),
    reachable g ->
    spawn_draw f < 5 / 100 ->
    possible_draws (meteor_draws f) ->
    exists g' : Game,
      tick f g = Some g' /\
      In (update (Meteor_init (next_ident g) (meteor_draws f))) (meteors g') /\
      next_ident g' = S (next_ident g) /\
      (List.length (meteors g') <= S (List.length (meteors g)))%nat.
Proof.
  intros g f Hr Hdraw Hposs. apply reachable_distinct in Hr.
  destruct (tick_result f g Hr) as (g' & Ht & _ & Hm & Hn & _).
  assert (Hsp : spawn f g =
                (meteors g ++ [Meteor_init (next_ident g) (meteor_draws f)],
                 S (next_ident g))).
  { unfold spawn. cmp (spawn_draw f) (5 / 100); [reflexivity | lra]. }
  rewrite Hsp in Hm, Hn. simpl in Hm, Hn.
  exists g'. split; [exact Ht|]. split; [|split; [exact Hn|]].
  - rewrite Hm. apply filter_In. split.
    + apply in_map. apply in_app_iff. right. now left.
    + destruct (Meteor_init_facts (next_ident g) (meteor_draws f) Hposs)
        as (_ & _ & _ & _ & _ & _ & Hon).
      now rewrite Hon.
  - rewrite Hm.
    eapply Nat.le_trans; [apply filter_length_le|].
    rewrite length_map, length_app. simpl. lia.
Qed.

Lemma spawned_meteor_survives_its_pass_witness :
  exists g' : Game,
    tick first_frame (main_start 0) = Some g' /\
    In (update (Meteor_init (next_ident (main_start 0))
                  (meteor_draws first_frame))) (meteors g') /\
    next_ident g' = S (next_ident (main_start 0)) /\
    (List.length (meteors g') <= S (List.length (meteors (main_start 0))))%nat.
Proof.
  apply (spawned_meteor_survives_its_pass (main_start 0) first_frame).
  - exists 0. apply later_now.
  - simpl. lra.
  - unfold possible_draws, HEIGHT. simpl. lra.
Defined.

(** ** The stand-alone tracker of [tracking.py], continued *)

Lemma tracking_loop_events (t : R) (s : Spaceship) (a : R) (b : Meteor -> R)
  (ms : list Meteor) :
  forall self,
  exists self',
    Tracking.track_loop t s (Some a) (fun m => Some (b m)) ms self
      = Some self' /\
    near_misses self' =
      near_misses self ++
      map (make_event t s)
          (filter (fun m => (center_distance s m <? danger_threshold self)
                            && (center_distance s m >? a + b m)) ms) /\
    danger_threshold self' = danger_threshold self.
Proof.
  induction ms as [|m ms IH]; intros self; simpl.
  - exists self. now rewrite app_nil_r.
  - unfold Tracking.is_near_miss.
    destruct (center_distance s m <? danger_threshold self); simpl.
    + destruct (center_distance s m >? a + b m); simpl.
      * destruct (IH (append_event self (make_event t s m)))
          as (self' & H1 & H2 & H3).
        exists self'. split; [exact H1|]. simpl in H2, H3.
        rewrite H2, H3, <- app_assoc. auto.
      * apply IH.
    + apply IH.
Qed.

(** X21.  The tracker of [tracking.py], on objects that carry the size
    attributes it reads: it does not fault, and it appends, in scan order,
    one event per meteor whose distance is below the danger threshold and
    above the sum of the two sizes; with the sizes of the game's constants
    it is the tracker of [spaceship_game.py]. *)
Theorem tracking_with_size_attributes :
  forall (now : R) (self : GameTracker) (s : Spaceship) (a : R)
         (b : Meteor -> R) (ms : list Meteor),
    (exists self',
       Tracking.track_frame now self s (Some a) (fun m => Some (b m)) ms
         = Some self' /\
       near_misses self' =
         near_misses self ++
         map (make_event (now - start_time self) s)
             (filter (fun m => (center_distance s m <? danger_threshold self)
                               && (center_distance s m >? a + b m)) ms)) /\
    Tracking.track_frame now self s (Some SPACESHIP_SIZE)
      (fun _ => Some METEOR_SIZE) ms = Some (track_frame now self s ms).
Proof.
  intros now self s a b ms. split.
  - destruct (tracking_loop_events (now - start_time self) s a b ms self)
      as (self' & H1 & H2 & _).
    exists self'. split; assumption.
  - apply tracking_agrees.
Qed.

(** X22.  The tracker of [tracking.py], on the objects of
    [spaceship_game.py], which define neither [SPACESHIP_SIZE] nor
    [METEOR_SIZE] as attributes: it raises as soon as one scanned meteor is
    closer than the danger threshold, and otherwise returns the tracker
    unchanged; it never records an event. *)
Theorem tracking_without_size_attributes :
  forall (now : R) (self : GameTracker) (s : Spaceship) (ms : list Meteor),
    (Tracking.track_frame now self s None (fun _ => None) ms = None <->
     Exists (fun m => center_distance s m < danger_threshold self) ms) /\
    (Tracking.track_frame now self s None (fun _ => None) ms <> None ->
     Tracking.track_frame now self s None (fun _ => None) ms = Some self).
Proof.
  intros now self s ms. unfold Tracking.track_frame.
  rewrite tracking_without_attributes.
  destruct (existsb (fun m => center_distance s m <? danger_threshold self) ms)
    eqn:He.
  - split; [|intros H; now contradiction H].
    split; [intros _|reflexivity].
    apply existsb_exists in He. apply Exists_exists.
    destruct He as (m & Hin & Hm). exists m. split; [exact Hin|].
    now apply Rltb_true.
  - split; [|reflexivity]. split; [discriminate|].
    intros Hex. apply Exists_exists in Hex. destruct Hex as (m & Hin & Hm).
    assert (Ht : existsb (fun m => center_distance s m <? danger_threshold self)
                   ms = true).
    { apply existsb_exists. exists m. split; [exact Hin|].
      now apply Rltb_true. }
    rewrite Ht in He. discriminate.
Qed.

(** ** Drawing the craft *)

Lemma rotation_keeps_length (a b t : R) :
  hypot (a * cos t - b * sin t) (a * sin t + b * cos t) = hypot a b.
Proof.
  unfold hypot. f_equal.
  pose proof (sin2_cos2 t) as H. unfold Rsqr in H.
  transitivity ((a * a + b * b) * (sin t * sin t + cos t * cos t)); [ring|].
  rewrite H. ring.
Qed.

(** X23.  The polygon [draw] hands to pygame is the triangle of [points]
    turned about the craft's center: it has three vertices, each as far
    from the center as the vertex it comes from (SPACESHIP_SIZE for the
    nose, the diagonal of a square of that side for the two others), and
    with a heading of 0 it is the triangle of [points] itself. *)
Theorem drawn_triangle_is_rotated :
  forall self : Spaceship,
    let from_center (p : R * R) := hypot (fst p - x self) (snd p - y self) in
    map from_center (rotated_points self) = map from_center (points self) /\
    map from_center (points self) =
      [SPACESHIP_SIZE; hypot SPACESHIP_SIZE SPACESHIP_SIZE;
       hypot SPACESHIP_SIZE SPACESHIP_SIZE] /\
    (angle self = 0 -> rotated_points self = points self).
Proof.
  intros self from_center.
  assert (Hrot : forall px py t,
            from_center (x self + (px - x self) * cos t - (py - y self) * sin t,
                         y self + (px - x self) * sin t + (py - y self) * cos t)
            = from_center (px, py)).
  { intros px py t. unfold from_center. simpl.
    rewrite <- (rotation_keeps_length (px - x self) (py - y self) t).
    f_equal; ring. }
  split; [|split].
  - unfold rotated_points, points. simpl map. rewrite !Hrot. reflexivity.
  - unfold points, from_center. simpl.
    replace (x self - x self) with 0 by ring.
    replace (y self + SPACESHIP_SIZE - y self) with SPACESHIP_SIZE by ring.
    replace (x self - SPACESHIP_SIZE - x self) with (- SPACESHIP_SIZE) by ring.
    replace (y self - SPACESHIP_SIZE - y self) with (- SPACESHIP_SIZE) by ring.
    replace (x self + SPACESHIP_SIZE - x self) with SPACESHIP_SIZE by ring.
    assert (H1 : hypot 0 SPACESHIP_SIZE = SPACESHIP_SIZE).
    { unfold hypot. apply sqrt_lem_1; unfold SPACESHIP_SIZE; lra. }
    assert (H2 : hypot (- SPACESHIP_SIZE) (- SPACESHIP_SIZE) =
                 hypot SPACESHIP_SIZE SPACESHIP_SIZE)
      by (unfold hypot; f_equal; ring).
    assert (H3 : hypot SPACESHIP_SIZE (- SPACESHIP_SIZE) =
                 hypot SPACESHIP_SIZE SPACESHIP_SIZE)
      by (unfold hypot; f_equal; ring).
    rewrite H1, H2, H3. reflexivity.
  - intros Ha. unfold rotated_points, points, radians. rewrite Ha.
    replace (0 * PI / 180) with 0 by lra.
    rewrite cos_0, sin_0. simpl.
    f_equal; [|f_equal; [|f_equal]]; (f_equal; ring).
Qed.

(** * Runs on concrete inputs *)

(** ** Quiet passes *)

Lemma hypot_axis_abs (a : R) : hypot a 0 = Rabs a.
Proof.
  unfold Rabs. destruct (Rcase_abs a).
  - apply hypot_axis_x_neg. lra.
  - apply hypot_axis_x. lra.
Qed.

(** A meteor on the craft's row is as far as the two x differ. *)
Lemma center_distance_row (s : Spaceship) (m : Meteor) :
  m_y m = y s -> center_distance s m = Rabs (x s - m_x m).
Proof.
  intros Hy. unfold center_distance. rewrite Hy.
  replace (y s - y s) with 0 by ring. apply hypot_axis_abs.
Qed.

Lemma off_screen_false (m : Meteor) :
  - METEOR_SIZE <= m_x m <= WIDTH + METEOR_SIZE ->
  - METEOR_SIZE <= m_y m <= HEIGHT + METEOR_SIZE ->
  off_screen m = false.
Proof.
  intros Hx Hy. apply not_true_iff_false. rewrite off_screen_iff. lra.
Qed.

(** With every meteor out of range a craft at rest at the center stays. *)
Lemma far_meteors_idle (ms : list Meteor) :
  Forall (fun m => DETECTION_RADIUS <= center_distance (craft_at 400 300) m)
         ms ->
  avoid_meteors (craft_at 400 300) ms = Some (craft_at 400 300).
Proof.
  intros Hfar. rewrite <- idle_at_center.
  unfold avoid_meteors, steer. rewrite <- threat_scan_filter.
  replace (filter (in_range (craft_at 400 300)) ms) with (@nil Meteor);
    [reflexivity|].
  symmetry. induction Hfar as [|m ms Hm _ IH]; simpl; [reflexivity|].
  destruct (in_range (craft_at 400 300) m) eqn:Hr; [|exact IH].
  apply in_range_iff in Hr. lra.
Qed.

Lemma track_loop_quiet (t : R) (s : Spaceship) (ms : list Meteor)
  (self : GameTracker) :
  Forall (fun m => is_near_miss self s m = false) ms ->
  track_loop t s ms self = self.
Proof.
  induction 1 as [|m ms Hm _ IH]; simpl; [reflexivity|].
  now rewrite Hm.
Qed.

Lemma collision_detection_clear (s : Spaceship) (ms : list Meteor) :
  Forall (fun m => SPACESHIP_SIZE + METEOR_SIZE <= center_distance s m) ms ->
  collision_detection s ms true = true.
Proof.
  induction 1 as [|m ms Hm _ IH]; simpl; [reflexivity|].
  cmp (center_distance s m) (SPACESHIP_SIZE + METEOR_SIZE); [lra | exact IH].
Qed.

(** ** The run in which a meteor leaves the field *)

Lemma drifter_update (k : nat) : update (drifter k) = drifter (S k).
Proof.
  unfold update, drifter. simpl ident. simpl m_x. simpl m_y.
  simpl m_velocity_x. simpl m_velocity_y. rewrite S_INR.
  f_equal; ring.
Qed.

Lemma drifter_distance (k : nat) :
  center_distance (craft_at 400 300) (drifter k) = 400 + 3 * INR k.
Proof.
  rewrite center_distance_row by reflexivity. simpl.
  pose proof (pos_INR k). rewrite Rabs_right; lra.
Qed.

Lemma drifter_on_screen (k : nat) :
  (k <= 8)%nat -> off_screen (drifter k) = false.
Proof.
  intros Hk. apply le_INR in Hk. simpl INR in Hk.
  pose proof (pos_INR k).
  replace (INR 8) with 8 in Hk by (simpl; lra).
  apply off_screen_false; simpl; unfold METEOR_SIZE, WIDTH, HEIGHT; lra.
Qed.

Lemma drifter_off_screen : off_screen (drifter 9) = true.
Proof.
  apply off_screen_iff. left. simpl. unfold METEOR_SIZE. lra.
Qed.

(** One pass of the run with the meteor live before it. *)
Lemma drift_pass (c : R) (k : nat) :
  tick (quiet_frame c) (drift_state k) =
  Some {| spaceship := craft_at 400 300;
          meteors := if off_screen (drifter (S k)) then []
                     else [drifter (S k)];
          running := true;
          score := S k;
          tracker := GameTracker_init 0;
          next_ident := 1 |}.
Proof.
  assert (Hsp : spawn (quiet_frame c) (drift_state k) = ([drifter k], 1%nat)).
  { unfold spawn. simpl spawn_draw. cmp (1 / 2) (5 / 100); [lra | reflexivity]. }
  assert (Hpass : scanned (quiet_frame c) (drift_state k) =
                  Some (if off_screen (drifter (S k)) then []
                        else [drifter (S k)])).
  { unfold scanned. rewrite Hsp. simpl fst.
    rewrite meteors_pass_filter by (simpl; repeat constructor; simpl; tauto).
    simpl. rewrite drifter_update.
    destruct (off_screen (drifter (S k))); reflexivity. }
  set (ms := if off_screen (drifter (S k)) then [] else [drifter (S k)]) in *.
  assert (Hfar : Forall (fun m => DETECTION_RADIUS
                   <= center_distance (craft_at 400 300) m) ms).
  { unfold ms. destruct (off_screen (drifter (S k))); constructor;
      [|constructor].
    rewrite drifter_distance. pose proof (pos_INR (S k)).
    unfold DETECTION_RADIUS. lra. }
  unfold tick. rewrite Hpass, Hsp. simpl bind. simpl spaceship.
  rewrite (far_meteors_idle ms Hfar). simpl bind. simpl snd.
  unfold track_frame. rewrite track_loop_quiet.
  - rewrite collision_detection_clear; [reflexivity|].
    eapply Forall_impl; [|exact Hfar]. simpl. intros m Hm.
    unfold SPACESHIP_SIZE, METEOR_SIZE, DETECTION_RADIUS in *. lra.
  - eapply Forall_impl; [|exact Hfar]. simpl. intros m Hm.
    unfold is_near_miss. simpl danger_threshold.
    cmp (center_distance (craft_at 400 300) m) 50;
      [unfold DETECTION_RADIUS in Hm; lra | reflexivity].
Qed.

(** The first pass spawns the meteor and moves it one step. *)
Lemma drift_first_pass : tick leaving_frame (main_start 0) = Some (drift_state 1).
Proof.
  assert (Hnew : update (Meteor_init 0 (meteor_draws leaving_frame))
                 = drifter 1).
  { unfold Meteor_init, update, drifter. simpl. rewrite cos_PI, sin_PI.
    f_equal; ring. }
  assert (Hsp : spawn leaving_frame (main_start 0) =
                ([Meteor_init 0 (meteor_draws leaving_frame)], 1%nat)).
  { unfold spawn. simpl spawn_draw.
    cmp (1 / 100) (5 / 100); [reflexivity | lra]. }
  assert (Hpass : scanned leaving_frame (main_start 0) = Some [drifter 1]).
  { unfold scanned. rewrite Hsp. cbn [fst].
    rewrite meteors_pass_filter by (simpl; repeat constructor; simpl; tauto).
    cbn [map]. rewrite Hnew. cbn [filter].
    rewrite drifter_on_screen by lia. reflexivity. }
  assert (Hfar : Forall (fun m => DETECTION_RADIUS
                   <= center_distance (craft_at 400 300) m) [drifter 1]).
  { constructor; [|constructor]. rewrite drifter_distance.
    pose proof (pos_INR 1). unfold DETECTION_RADIUS. lra. }
  unfold tick. rewrite Hpass, Hsp. simpl bind. simpl spaceship.
  change Spaceship_init with (craft_at 400 300).
  rewrite (far_meteors_idle _ Hfar). simpl bind. simpl snd.
  unfold track_frame. rewrite track_loop_quiet.
  - cmp (center_distance (craft_at 400 300) (drifter 1))
        (SPACESHIP_SIZE + METEOR_SIZE); [|reflexivity].
    exfalso. rewrite drifter_distance in Hcmp. pose proof (pos_INR 1).
    unfold SPACESHIP_SIZE, METEOR_SIZE in Hcmp. lra.
  - eapply Forall_impl; [|exact Hfar]. simpl. intros m Hm.
    unfold is_near_miss. simpl danger_threshold.
    cmp (center_distance (craft_at 400 300) m) 50;
      [unfold DETECTION_RADIUS in Hm; lra | reflexivity].
Qed.

(** The run reaches each of the states with the meteor live. *)
Lemma drift_state_reachable (k : nat) :
  (1 <= k <= 8)%nat -> reachable (drift_state k).
Proof.
  intros Hk. exists 0.
  induction k as [|k IH]; [lia|].
  destruct (Nat.eq_dec k 0) as [->|Hk0].
  - eapply later_tick; [apply later_now | reflexivity | apply drift_first_pass].
  - eapply later_tick; [apply IH; lia | reflexivity |].
    rewrite (drift_pass (INR (S k)) k).
    rewrite drifter_on_screen by lia. reflexivity.
Qed.

(** The ninth pass drops the meteor: it is 24 to the left of the field,
    and one more step takes it past the margin of 25. *)
Lemma ninth_pass_drops_the_meteor :
  In (drifter 8) (fst (spawn (quiet_frame 9) (drift_state 8))) /\
  m_x (drifter 8) + m_velocity_x (drifter 8) < - METEOR_SIZE /\
  tick (quiet_frame 9) (drift_state 8) =
    Some {| spaceship := craft_at 400 300;
            meteors := [];
            running := true;
            score := 9;
            tracker := GameTracker_init 0;
            next_ident := 1 |}.
Proof.
  split; [|split].
  - unfold spawn. simpl spawn_draw.
    cmp (1 / 2) (5 / 100); [lra|]. simpl. now left.
  - simpl. unfold METEOR_SIZE. lra.
  - rewrite drift_pass, drifter_off_screen. reflexivity.
Qed.

(** The state before the ninth pass is reachable, the ninth pass drops
    the meteor, and the statement of C8 holds of that pass. *)
Lemma C8_off_screen_culling_witness :
  reachable (drift_state 8) /\
  (In (drifter 8) (fst (spawn (quiet_frame 9) (drift_state 8))) /\
   m_x (drifter 8) + m_velocity_x (drifter 8) < - METEOR_SIZE /\
   tick (quiet_frame 9) (drift_state 8) =
     Some {| spaceship := craft_at 400 300;
             meteors := [];
             running := true;
             score := 9;
             tracker := GameTracker_init 0;
             next_ident := 1 |}) /\
  exists g' : Game,
    tick (quiet_frame 9) (drift_state 8) = Some g' /\
    scanned (quiet_frame 9) (drift_state 8) = Some (meteors g') /\
    meteors g' =
      filter (fun m => negb (off_screen m))
             (map update (fst (spawn (quiet_frame 9) (drift_state 8)))) /\
    (forall m, In m (fst (spawn (quiet_frame 9) (drift_state 8))) ->
       ((m_x m + m_velocity_x m < - METEOR_SIZE \/
         WIDTH + METEOR_SIZE < m_x m + m_velocity_x m \/
         m_y m + m_velocity_y m < - METEOR_SIZE \/
         HEIGHT + METEOR_SIZE < m_y m + m_velocity_y m) <->
        ~ In (ident m) (map ident (meteors g')))) /\
    (forall m, In m (fst (spawn (quiet_frame 9) (drift_state 8))) ->
       ~ In (ident m) (map ident (meteors g')) ->
       forall g'' f' scan,
         later g' g'' -> scanned f' g'' = Some scan ->
         ~ In (ident m) (map ident scan)) /\
    (forall u, In u (meteors g') ->
       exists m, In m (fst (spawn (quiet_frame 9) (drift_state 8))) /\
         ident u = ident m /\
         m_x u = m_x m + m_velocity_x m /\
         m_y u = m_y m + m_velocity_y m /\
         m_velocity_x u = m_velocity_x m /\
         m_velocity_y u = m_velocity_y m).
Proof.
  split; [apply drift_state_reachable; lia|].
  split; [exact ninth_pass_drops_the_meteor|].
  apply (C8_off_screen_culling (drift_state 8) (quiet_frame 9)).
  apply drift_state_reachable. lia.
Defined.

(** The invariants in the state the run is in after eight passes, with one
    live meteor 24 to the left of the field. *)
Lemma run_invariants_witness :
  in_field (spaceship (drift_state 8)) /\
  Forall (fun m => off_screen m = false) (meteors (drift_state 8)) /\
  (List.length (meteors (drift_state 8)) <= next_ident (drift_state 8)
     <= score (drift_state 8))%nat /\
  tracked (tracker (drift_state 8)).
Proof.
  apply (run_invariants (drift_state 8)).
  apply drift_state_reachable. lia.
Defined.

(** ** The run that records two near misses *)

Lemma INR_le_lit (k : nat) (z : Z) : (Z.of_nat k <= z)%Z -> INR k <= IZR z.
Proof. intros H. rewrite INR_IZR_INZ. now apply IZR_le. Qed.

Lemma INR_ge_lit (k : nat) (z : Z) : (z <= Z.of_nat k)%Z -> IZR z <= INR k.
Proof. intros H. rewrite INR_IZR_INZ. now apply IZR_le. Qed.

Lemma main_loop_running (f : Frame) (rest : list Frame) (g : Game) :
  running g = true ->
  main_loop (f :: rest) g = (g' <- tick f g ;; main_loop rest g').
Proof. intros Hr. simpl. now rewrite Hr. Qed.

Lemma steer_idle_at_center :
  steer (craft_at 400 300) [] = Some (craft_at 400 300).
Proof.
  unfold steer. simpl threat_scan. simpl bind.
  destruct (apply_avoidance_total (craft_at 400 300) (0, 0))
    as [[_ Ha] | [Hl _]];
    [|exfalso; apply Hl; now apply hypot_zero].
  simpl avoidance_vector. rewrite Ha. simpl bind. simpl in_danger.
  destruct (apply_centering_total (craft_at 400 300))
    as [_ [[_ Hc] | [Hn _]]].
  - rewrite Hc. unfold set_velocity, craft_at, WIDTH, HEIGHT. simpl.
    f_equal. f_equal; lra.
  - exfalso. apply Hn. apply hypot_zero.
    unfold WIDTH, HEIGHT. simpl. split; lra.
Qed.

(** Two meteors in range on the craft's row, one on each side: their unit
    vectors cancel, and a craft at rest at the center stays. *)
Lemma cancelled_pair_idle (a b : Meteor) :
  m_y a = 300 -> m_y b = 300 ->
  0 < 400 - m_x a < 110 -> 0 < m_x b - 400 < 110 ->
  avoid_meteors (craft_at 400 300) [a; b] = Some (craft_at 400 300).
Proof.
  intros Hya Hyb Ha Hb.
  assert (Hda : center_distance (craft_at 400 300) a = 400 - m_x a).
  { rewrite center_distance_row by (simpl; lra). simpl.
    rewrite Rabs_right; lra. }
  assert (Hdb : center_distance (craft_at 400 300) b = m_x b - 400).
  { rewrite center_distance_row by (simpl; lra). simpl.
    rewrite Rabs_left1; lra. }
  assert (Hs : steer (craft_at 400 300) [a; b] = Some (craft_at 400 300)).
  { unfold steer, threat_scan. rewrite Hda, Hdb.
    rewrite (in_range_at (400 - m_x a)), (in_range_at (m_x b - 400)) by lra.
    rewrite !pdiv_nonzero by lra. simpl bind.
    match goal with |- context [apply_avoidance ?s ?v] =>
      destruct (apply_avoidance_total s v) as [[_ Hav] | [Hl _]] end.
    - simpl avoidance_vector. rewrite Hav. reflexivity.
    - exfalso. apply Hl. apply hypot_zero. simpl. rewrite Hya, Hyb.
      split; field; lra. }
  rewrite (avoid_meteors_unfold _ _ _ Hs).
  rewrite <- (avoid_meteors_unfold _ _ _ steer_idle_at_center).
  apply idle_at_center.
Qed.

Lemma west_update (k : nat) : update (west k) = west (S k).
Proof.
  unfold update, west. cbn [ident m_x m_y m_velocity_x m_velocity_y].
  rewrite S_INR. f_equal; ring.
Qed.

Lemma east_update (k : nat) : update (east k) = east (S k).
Proof.
  unfold update, east. cbn [ident m_x m_y m_velocity_x m_velocity_y].
  rewrite S_INR. f_equal; ring.
Qed.

Lemma west_distance (k : nat) :
  (k <= 200)%nat ->
  center_distance (craft_at 400 300) (west k) = 400 - 2 * INR k.
Proof.
  intros Hk. assert (INR k <= 200) by (apply INR_le_lit; lia).
  rewrite center_distance_row by reflexivity. simpl.
  rewrite Rabs_right; lra.
Qed.

Lemma east_distance (k : nat) :
  (k <= 182)%nat ->
  center_distance (craft_at 400 300) (east k) = 547 - 3 * INR k.
Proof.
  intros Hk. assert (INR k <= 182) by (apply INR_le_lit; lia).
  rewrite center_distance_row by reflexivity. simpl.
  rewrite Rabs_left1; lra.
Qed.

Lemma west_on_screen (k : nat) :
  (k <= 200)%nat -> off_screen (west k) = false.
Proof.
  intros Hk. assert (INR k <= 200) by (apply INR_le_lit; lia).
  pose proof (pos_INR k).
  apply off_screen_false; simpl; unfold METEOR_SIZE, WIDTH, HEIGHT; lra.
Qed.

Lemma east_on_screen (k : nat) :
  (50 <= k <= 200)%nat -> off_screen (east k) = false.
Proof.
  intros Hk. assert (INR k <= 200) by (apply INR_le_lit; lia).
  assert (50 <= INR k) by (apply INR_ge_lit; lia).
  apply off_screen_false; simpl; unfold METEOR_SIZE, WIDTH, HEIGHT; lra.
Qed.

(** What pass [k + 1] spawns and scans. *)
Lemma duel_scanned (k : nat) (t : GameTracker) :
  (1 <= k <= 199)%nat ->
  snd (spawn (duel_frame (S k)) (duel_state k t)) =
    next_ident (duel_state (S k) t) /\
  scanned (duel_frame (S k)) (duel_state k t) = Some (duel_meteors (S k)).
Proof.
  intros Hk.
  assert (E1 : Nat.eqb (S k) 1 = false) by (apply Nat.eqb_neq; lia).
  unfold scanned, spawn, duel_frame, duel_state, duel_meteors.
  cbn [spawn_draw meteor_draws meteors next_ident]. rewrite E1.
  destruct (Nat.eqb_spec (S k) 50) as [E50 | N50].
  - assert (Ek : k = 49%nat) by lia. subst k. cbn [orb Nat.ltb Nat.leb].
    cmp (1 / 100) (5 / 100); [|lra]. cbn [fst snd app].
    split; [reflexivity|].
    rewrite meteors_pass_filter
      by (simpl; repeat constructor; simpl; intuition discriminate).
    cbn [map]. rewrite west_update.
    assert (Hnew : update (Meteor_init 1
                     {| d_side := side_right; d_coord := 300;
                        d_angle := PI; d_speed := 3 |}) = east 50).
    { unfold Meteor_init, update, east.
      cbn [d_side d_coord d_angle d_speed ident m_x m_y
           m_velocity_x m_velocity_y].
      rewrite cos_PI, sin_PI, (INR_IZR_INZ 50). unfold WIDTH. simpl Z.of_nat.
      f_equal; ring. }
    rewrite Hnew. cbn [filter].
    rewrite west_on_screen, east_on_screen by lia. reflexivity.
  - cbn [orb]. cmp (1 / 2) (5 / 100); [lra|]. cbn [fst snd].
    destruct (Nat.ltb_spec k 50) as [Hlt | Hge];
      destruct (Nat.ltb_spec (S k) 50) as [Hlt' | Hge']; try lia;
      (split; [reflexivity|]);
      rewrite meteors_pass_filter
        by (simpl; repeat constructor; simpl; intuition discriminate);
      cbn [map filter]; rewrite ?west_update, ?east_update;
      rewrite ?west_on_screen, ?east_on_screen by lia; reflexivity.
Qed.

(** The craft stays at rest: until pass 145 both meteors are out of range,
    from pass 146 on both are in range and cancel. *)
Lemma duel_avoid (k : nat) :
  (1 <= k <= 170)%nat ->
  avoid_meteors (craft_at 400 300) (duel_meteors k) = Some (craft_at 400 300).
Proof.
  intros Hk. assert (Hlo : 1 <= INR k) by (apply INR_ge_lit; lia).
  assert (Hhi : INR k <= 170) by (apply INR_le_lit; lia).
  unfold duel_meteors.
  destruct (Nat.ltb_spec k 50) as [Hlt | Hge].
  - assert (INR k <= 49) by (apply INR_le_lit; lia).
    apply far_meteors_idle. constructor; [|constructor].
    rewrite west_distance by lia. unfold DETECTION_RADIUS. lra.
  - destruct (Nat.le_gt_cases k 145) as [Hfar | Hnear].
    + assert (INR k <= 145) by (apply INR_le_lit; lia).
      apply far_meteors_idle. constructor; [|constructor; [|constructor]].
      * rewrite west_distance by lia. unfold DETECTION_RADIUS. lra.
      * rewrite east_distance by lia. unfold DETECTION_RADIUS. lra.
    + assert (146 <= INR k) by (apply INR_ge_lit; lia).
      apply cancelled_pair_idle; simpl; lra.
Qed.

(** No collision up to pass 170. *)
Lemma duel_clear (k : nat) :
  (1 <= k <= 170)%nat ->
  collision_detection (craft_at 400 300) (duel_meteors k) true = true.
Proof.
  intros Hk. assert (Hhi : INR k <= 170) by (apply INR_le_lit; lia).
  apply collision_detection_clear. unfold duel_meteors.
  destruct (Nat.ltb_spec k 50) as [Hlt | Hge].
  - constructor; [|constructor].
    rewrite west_distance by lia. unfold SPACESHIP_SIZE, METEOR_SIZE. lra.
  - constructor; [|constructor; [|constructor]].
    + rewrite west_distance by lia. unfold SPACESHIP_SIZE, METEOR_SIZE. lra.
    + rewrite east_distance by lia. unfold SPACESHIP_SIZE, METEOR_SIZE. lra.
Qed.

(** One pass of the run. *)
Lemma duel_tick (k : nat) (t : GameTracker) :
  (1 <= k <= 169)%nat ->
  tick (duel_frame (S k)) (duel_state k t) =
  Some (duel_state (S k)
          (track_frame (INR (S k)) t (craft_at 400 300)
             (duel_meteors (S k)))).
Proof.
  intros Hk. destruct (duel_scanned k t) as (Hnext & Hscan); [lia|].
  unfold tick. cbv zeta. rewrite Hscan, Hnext. cbn [bind].
  change (spaceship (duel_state k t)) with (craft_at 400 300).
  rewrite duel_avoid by lia. cbn [bind].
  change (running (duel_state k t)) with true.
  rewrite duel_clear by lia. reflexivity.
Qed.

(** The first pass spawns the meteor on the left. *)
Lemma duel_first_pass :
  tick (duel_frame 1) (main_start 0) = Some (duel_state 1 (GameTracker_init 0)).
Proof.
  assert (Hnew : update (Meteor_init 0 (meteor_draws (duel_frame 1)))
                 = west 1).
  { unfold Meteor_init, update, west. simpl. rewrite cos_0, sin_0.
    f_equal; ring. }
  assert (Hsp : spawn (duel_frame 1) (main_start 0) =
                ([Meteor_init 0 (meteor_draws (duel_frame 1))], 1%nat)).
  { unfold spawn. simpl spawn_draw.
    cmp (1 / 100) (5 / 100); [reflexivity | lra]. }
  assert (Hpass : scanned (duel_frame 1) (main_start 0) = Some [west 1]).
  { unfold scanned. rewrite Hsp. cbn [fst].
    rewrite meteors_pass_filter by (simpl; repeat constructor; simpl; tauto).
    cbn [map]. rewrite Hnew. cbn [filter].
    rewrite west_on_screen by lia. reflexivity. }
  unfold tick. cbv zeta. rewrite Hpass, Hsp. cbn [bind snd].
  change (spaceship (main_start 0)) with (craft_at 400 300).
  change [west 1] with (duel_meteors 1).
  rewrite duel_avoid by lia. cbn [bind].
  change (running (main_start 0)) with true.
  rewrite duel_clear by lia.
  unfold track_frame. rewrite track_loop_quiet; [reflexivity|].
  constructor; [|constructor]. unfold is_near_miss.
  rewrite west_distance by lia. simpl. cmp (400 - 2 * 1) 50; [lra | reflexivity].
Qed.

(** Up to pass 165 no meteor is inside the danger threshold. *)
Lemma duel_quiet (c : R) (k : nat) :
  (1 <= k <= 165)%nat ->
  track_frame c (GameTracker_init 0) (craft_at 400 300) (duel_meteors k) =
  GameTracker_init 0.
Proof.
  intros Hk. assert (Hhi : INR k <= 165) by (apply INR_le_lit; lia).
  unfold track_frame. apply track_loop_quiet. unfold duel_meteors.
  destruct (Nat.ltb_spec k 50) as [Hlt | Hge].
  - constructor; [|constructor]. unfold is_near_miss.
    rewrite west_distance by lia. simpl danger_threshold.
    cmp (400 - 2 * INR k) 50; [lra | reflexivity].
  - constructor; [|constructor; [|constructor]]; unfold is_near_miss.
    + rewrite west_distance by lia. simpl danger_threshold.
      cmp (400 - 2 * INR k) 50; [lra | reflexivity].
    + rewrite east_distance by lia. simpl danger_threshold.
      cmp (547 - 3 * INR k) 50; [lra | reflexivity].
Qed.

(** The passes up to pass 165 leave the tracker empty. *)
Lemma duel_quiet_run (n : nat) :
  forall (k : nat) (rest : list Frame),
    (1 <= k)%nat -> (k + n <= 165)%nat ->
    main_loop (map duel_frame (seq (S k) n) ++ rest)
      (duel_state k (GameTracker_init 0)) =
    main_loop rest (duel_state (k + n) (GameTracker_init 0)).
Proof.
  induction n as [|n IH]; intros k rest Hk Hn.
  - rewrite Nat.add_0_r. reflexivity.
  - cbn [seq map app]. rewrite main_loop_running by reflexivity.
    rewrite duel_tick by lia. cbn [bind]. rewrite duel_quiet by lia.
    rewrite IH by lia. now rewrite Nat.add_succ_comm.
Qed.

(** The tracker after passes 166 and 167. *)
Lemma duel_events :
  let t1 := track_frame (INR 166) (GameTracker_init 0) (craft_at 400 300)
              (duel_meteors 166) in
  let t2 := track_frame (INR 167) t1 (craft_at 400 300) (duel_meteors 167) in
  map timestamp (near_misses t2) = [166 - 0; 167 - 0] /\
  map distance (near_misses t2) = [49; 46] /\
  map meteor_position (near_misses t2) = [(449, 300); (446, 300)].
Proof.
  intros t1 t2.
  assert (E6 : INR 166 = 166) by (rewrite INR_IZR_INZ; reflexivity).
  assert (E7 : INR 167 = 167) by (rewrite INR_IZR_INZ; reflexivity).
  assert (W6 : center_distance (craft_at 400 300) (west 166) = 68)
    by (rewrite west_distance by lia; rewrite E6; lra).
  assert (W7 : center_distance (craft_at 400 300) (west 167) = 66)
    by (rewrite west_distance by lia; rewrite E7; lra).
  assert (D6 : center_distance (craft_at 400 300) (east 166) = 49)
    by (rewrite east_distance by lia; rewrite E6; lra).
  assert (D7 : center_distance (craft_at 400 300) (east 167) = 46)
    by (rewrite east_distance by lia; rewrite E7; lra).
  assert (N1 : near_misses t1 =
               [make_event (INR 166 - 0) (craft_at 400 300) (east 166)]).
  { unfold t1, track_frame. rewrite track_loop_events.
    change (duel_meteors 166) with [west 166; east 166].
    cbn [filter near_misses GameTracker_init start_time app].
    unfold is_near_miss. rewrite W6, D6. simpl danger_threshold.
    cmp 68 50; [lra|]. cmp 49 50; [|lra].
    cmpg 49 (SPACESHIP_SIZE + METEOR_SIZE);
      [|unfold SPACESHIP_SIZE, METEOR_SIZE in *; lra].
    reflexivity. }
  assert (Hst : start_time t1 = 0)
    by exact (proj1 (track_loop_thresholds _ _ _ (GameTracker_init 0))).
  assert (Hdt : danger_threshold t1 = 50)
    by exact (proj1 (proj2 (track_loop_thresholds _ _ _ (GameTracker_init 0)))).
  assert (N2 : near_misses t2 =
               [make_event (INR 166 - 0) (craft_at 400 300) (east 166);
                make_event (INR 167 - 0) (craft_at 400 300) (east 167)]).
  { unfold t2, track_frame. rewrite track_loop_events, N1, Hst.
    change (duel_meteors 167) with [west 167; east 167].
    cbn [filter app]. unfold is_near_miss. rewrite W7, D7, Hdt.
    cmp 66 50; [lra|]. cmp 46 50; [|lra].
    cmpg 46 (SPACESHIP_SIZE + METEOR_SIZE);
      [|unfold SPACESHIP_SIZE, METEOR_SIZE in *; lra].
    reflexivity. }
  rewrite N2. cbn [map timestamp distance meteor_position make_event].
  rewrite D6, D7, E6, E7. split; [reflexivity|]. split; [reflexivity|].
  cbn [east m_x m_y]. rewrite E6, E7. repeat f_equal; lra.
Qed.

(** The whole run: 167 passes, the craft at rest at the center, the
    meteor from the right 49 and then 46 away in the last two passes. *)
Lemma duel_run :
  main_loop (duel_frames 167) (main_start 0) =
  Some (duel_state 167
          (track_frame (INR 167)
             (track_frame (INR 166) (GameTracker_init 0) (craft_at 400 300)
                (duel_meteors 166))
             (craft_at 400 300) (duel_meteors 167))).
Proof.
  change (duel_frames 167)
    with (duel_frame 1 ::
          (map duel_frame (seq 2 164) ++ [duel_frame 166; duel_frame 167])).
  rewrite main_loop_running by reflexivity.
  rewrite duel_first_pass. cbn [bind].
  rewrite (duel_quiet_run 164 1) by lia.
  change (1 + 164)%nat with 165%nat.
  rewrite main_loop_running by reflexivity.
  rewrite duel_tick by lia. cbn [bind].
  rewrite main_loop_running by reflexivity.
  rewrite duel_tick by lia. reflexivity.
Qed.

Lemma duel_clock_sorted (n : nat) :
  StronglySorted Rle (0 :: map clock (duel_frames n)).
Proof.
  unfold duel_frames. rewrite map_map. cbn [clock duel_frame].
  constructor.
  - generalize 1%nat. induction n as [|n IH]; intros k; cbn [seq map];
      constructor; [apply IH|].
    apply Forall_forall. intros r Hin.
    apply in_map_iff in Hin as (j & <- & Hj). apply in_seq in Hj.
    apply le_INR. lia.
  - apply Forall_forall. intros r Hin.
    apply in_map_iff in Hin as (j & <- & _). apply pos_INR.
Qed.

(** A run of 167 passes with draws [random] can return, read at clocks
    1, 2, ..., that records two near misses: the statement of X4 and the
    timestamps it orders. *)
Lemma events_in_chronological_order_witness :
  exists g' : Game,
    main_loop (duel_frames 167) (main_start 0) = Some g' /\
    StronglySorted Rle (map timestamp (near_misses (tracker g'))) /\
    Forall (fun e => 0 <= timestamp e) (near_misses (tracker g')) /\
    map timestamp (near_misses (tracker g')) = [166 - 0; 167 - 0].
Proof.
  destruct (events_in_chronological_order 0 (duel_frames 167))
    as (g' & Hl & Hs & Hf).
  - apply duel_clock_sorted.
  - exists g'. split; [exact Hl|]. split; [exact Hs|]. split; [exact Hf|].
    rewrite duel_run in Hl. injection Hl as <-.
    apply duel_events.
Defined.
